(** * Terminal environment, working directory and shell path preparation

    A shallow embedding of
    [src/vs/workbench/contrib/terminal/common/terminalEnvironment.ts]
    and the properties its specification states about it.

    Conventions of the embedding.
    - JavaScript strings are [string]s (their UTF-8 bytes); every character
      the source tests for (space, quote, dash, dot, slash ...) is ASCII, so
      the byte-wise operations below agree with the code-unit-wise ones.
    - [toLowerCase] and [toUpperCase] are builtins of the host language: the
      general statements hold for any such functions, and the ASCII versions
      [asciiLower] and [asciiUpper] instantiate them on concrete inputs.
    - An object used as a dictionary ([IProcessEnvironment],
      [ITerminalEnvironment]) is a plain object, given as the list of its own
      properties in the order in which the host enumerates them: the array
      indices in ascending order, then the other keys in creation order.  An
      assignment follows the host: it updates an own property in place,
      creates a new one at its place in that order, and creates nothing for
      the key [__proto__], which a plain object inherits as an accessor whose
      setter drops a string.
    - A promise is the value it settles to: a resolver is a function to
      [option string], [None] being a rejection.
    - Platform constants ([isWindows], [language]) and helpers imported from
      other modules ([sanitizeProcessEnvironment], [sanitizeCwd],
      [path.basename], ...) are parameters. *)

From Stdlib Require Import String Ascii List Bool NArith ZArith Lia Permutation.
Import ListNotations.
Local Open Scope string_scope.
Local Open Scope list_scope.

(** ** The fragment of the host language the module relies on *)

Module JS.

(** What a property of an environment object can hold:
    [string | null | undefined]. *)
Inductive value : Type :=
| VStr (s : string)
| VNull
| VUndefined.

Definition object : Type := list (string * value).

Definition keys (o : object) : list string := map fst o.

(** Own-property lookup. *)
Fixpoint getOwn (o : object) (k : string) : option value :=
  match o with
  | [] => None
  | (k', v) :: o' => if String.eqb k' k then Some v else getOwn o' k
  end.

(** [o[k]] for the keys that the module reads, own keys and [LANG]: a
    missing property reads as [undefined]. *)
Definition prop (o : object) (k : string) : value :=
  match getOwn o k with
  | Some v => v
  | None => VUndefined
  end.

Definition hasOwn (o : object) (k : string) : bool :=
  match getOwn o k with
  | Some _ => true
  | None => false
  end.

(** The array indices: the canonical decimal numerals below [2^32 - 1]. *)
Definition digitOf (a : ascii) : option N :=
  let n := N_of_ascii a in
  if (48 <=? n)%N && (n <=? 57)%N then Some (n - 48)%N else None.

Fixpoint decimal (s : string) (acc : N) : option N :=
  match s with
  | EmptyString => Some acc
  | String a s' =>
      match digitOf a with
      | Some d => decimal s' (10 * acc + d)%N
      | None => None
      end
  end.

Definition arrayIndex (k : string) : option N :=
  match k with
  | EmptyString => None
  | String a rest =>
      if Ascii.eqb a "0" && negb (String.eqb rest EmptyString) then None
      else match decimal k 0%N with
           | Some n => if (n <? 4294967295)%N then Some n else None
           | None => None
           end
  end.

(** Assignment to an own property: the property keeps its place. *)
Fixpoint update (o : object) (k : string) (v : value) : object :=
  match o with
  | [] => []
  | (k', v') :: o' =>
      if String.eqb k' k then (k', v) :: o' else (k', v') :: update o' k v
  end.

(** A new property: an array index goes before the first key that is not a
    smaller array index, any other key goes last. *)
Fixpoint insertIndex (n : N) (k : string) (v : value) (o : object) : object :=
  match o with
  | [] => [(k, v)]
  | (k', v') :: o' =>
      match arrayIndex k' with
      | Some m =>
          if (m <? n)%N then (k', v') :: insertIndex n k v o' else (k, v) :: o
      | None => (k, v) :: o
      end
  end.

Definition define (o : object) (k : string) (v : value) : object :=
  match arrayIndex k with
  | Some n => insertIndex n k v o
  | None => o ++ [(k, v)]
  end.

(** An assignment to [k] takes effect when [k] is an own property, or is not
    [__proto__]. *)
Definition writable (o : object) (k : string) : bool :=
  hasOwn o k || negb (String.eqb k "__proto__").

(** [o[k] = v] on a plain object, for the strings that the module assigns:
    an own property is updated; failing that, the key [__proto__] reaches the
    setter inherited from [Object.prototype], which ignores a string; any
    other key becomes a new property. *)
Definition setProp (o : object) (k : string) (v : value) : object :=
  if hasOwn o k then update o k v
  else if String.eqb k "__proto__" then o
  else define o k v.

(** [delete o[k]]. *)
Definition deleteProp (o : object) (k : string) : object :=
  filter (fun e => negb (String.eqb (fst e) k)) o.

Definition isStr (v : value) : bool :=
  match v with VStr _ => true | _ => false end.

(** Truthiness of a [string | undefined]. *)
Definition truthy (s : option string) : bool :=
  match s with
  | Some s => negb (String.eqb s "")
  | None => false
  end.

(** [a || b] on [string | undefined] with a string fallback. *)
Definition orElse (a : option string) (b : string) : string :=
  match a with
  | Some s => if String.eqb s "" then b else s
  | None => b
  end.

(** [s.includes(sub)]. *)
Fixpoint includes (s sub : string) : bool :=
  String.prefix sub s ||
  match s with
  | EmptyString => false
  | String _ s' => includes s' sub
  end.

(** [s.replace(/c/g, by)] for a one-character pattern. *)
Fixpoint replaceAll (c : ascii) (by_ : string) (s : string) : string :=
  match s with
  | EmptyString => EmptyString
  | String a s' =>
      if Ascii.eqb a c then by_ ++ replaceAll c by_ s'
      else String a (replaceAll c by_ s')
  end.

(** [s.split(sep)] for a one-character separator. *)
Fixpoint split (sep : ascii) (s : string) : list string :=
  match s with
  | EmptyString => [EmptyString]
  | String a s' =>
      if Ascii.eqb a sep then EmptyString :: split sep s'
      else match split sep s' with
           | [] => [String a EmptyString]
           | p :: ps => String a p :: ps
           end
  end.

(** [parts.join(sep)]. *)
Fixpoint join (sep : string) (parts : list string) : string :=
  match parts with
  | [] => EmptyString
  | [p] => p
  | p :: ps => p ++ sep ++ join sep ps
  end.

(** [s.search(re)]: the first index at which the expression matches, or
    [-1].  [m] tells whether the expression matches at the start of its
    argument. *)
Fixpoint searchFrom (m : string -> bool) (s : string) (i : Z) : Z :=
  if m s then i
  else match s with
       | EmptyString => (-1)%Z
       | String _ s' => searchFrom m s' (i + 1)%Z
       end.

Definition search (m : string -> bool) (s : string) : Z := searchFrom m s 0%Z.

(** The line terminators, which [.] does not match: LF, CR, and U+2028 and
    U+2029 (in UTF-8: E2 80 A8 and E2 80 A9). *)
Definition startsWithLineTerminator (s : string) : bool :=
  match s with
  | EmptyString => false
  | String a s' =>
      Ascii.eqb a "010"%char || Ascii.eqb a "013"%char ||
      (Ascii.eqb a "226"%char &&
       match s' with
       | String b (String c _) =>
           Ascii.eqb b "128"%char &&
           (Ascii.eqb c "168"%char || Ascii.eqb c "169"%char)
       | _ => false
       end)
  end.

(** ASCII case mapping. *)
Definition lowerChar (a : ascii) : ascii :=
  let n := nat_of_ascii a in
  if (65 <=? n)%nat && (n <=? 90)%nat then ascii_of_nat (n + 32) else a.

Definition upperChar (a : ascii) : ascii :=
  let n := nat_of_ascii a in
  if (97 <=? n)%nat && (n <=? 122)%nat then ascii_of_nat (n - 32) else a.

Fixpoint mapChars (f : ascii -> ascii) (s : string) : string :=
  match s with
  | EmptyString => EmptyString
  | String a s' => String (f a) (mapChars f s')
  end.

Definition asciiLower : string -> string := mapChars lowerChar.
Definition asciiUpper : string -> string := mapChars upperChar.

End JS.

Import JS.

Definition IProcessEnvironment : Type := object.
Definition ITerminalEnvironment : Type := object.

(** [VariableResolver = (str: string) => Promise<string>]. *)
Definition VariableResolver : Type := string -> option string.

(** ** mergeEnvironments, _mergeEnvironmentValue, mergeNonNullKeys *)

Section Merge.

Variable toLowerCase : string -> string.
Variable isWindows : bool.

Definition _mergeEnvironmentValue
    (env : ITerminalEnvironment) (key : string) (value : value)
  : ITerminalEnvironment :=
  match value with
  | VStr s => setProp env key (VStr s)
  | _ => deleteProp env key
  end.

(** The inner loop of the Windows branch: scan the keys of [parent] and stop
    at the first one equal to [configKey] up to case. *)
Fixpoint findActualKey
    (configKey : string) (envKeys : list string) (actualKey : string)
  : string :=
  match envKeys with
  | [] => actualKey
  | envKey :: rest =>
      if String.eqb (toLowerCase configKey) (toLowerCase envKey) then envKey
      else findActualKey configKey rest actualKey
  end.

Definition mergeEnvironments
    (parent : IProcessEnvironment) (other : option ITerminalEnvironment)
  : IProcessEnvironment :=
  match other with
  | None => parent
  | Some other =>
      if isWindows then
        fold_left
          (fun parent configKey =>
             let actualKey := findActualKey configKey (keys parent) configKey in
             let value := prop other configKey in
             match value with
             | VUndefined => parent
             | _ => _mergeEnvironmentValue parent actualKey value
             end)
          (keys other) parent
      else
        fold_left
          (fun parent key =>
             let value := prop other key in
             match value with
             | VUndefined => parent
             | _ => _mergeEnvironmentValue parent key value
             end)
          (keys other) parent
  end.

End Merge.

Definition mergeNonNullKeys
    (env : IProcessEnvironment) (other : option ITerminalEnvironment)
  : IProcessEnvironment :=
  match other with
  | None => env
  | Some other =>
      fold_left
        (fun env key =>
           let value := prop other key in
           match value with
           | VStr s => setProp env key (VStr s)
           | _ => env
           end)
        (keys other) env
  end.

(** Every string entry is replaced by what the resolver returns for it, and
    kept when the resolver rejects; the entries are read before any is
    written. *)
Definition resolveConfigurationVariables
    (variableResolver : VariableResolver) (env : ITerminalEnvironment)
  : ITerminalEnvironment :=
  fold_left
    (fun env' entry =>
       match snd entry with
       | VStr value =>
           match variableResolver value with
           | Some resolved => setProp env' (fst entry) (VStr resolved)
           | None => setProp env' (fst entry) (VStr value)
           end
       | _ => env'
       end)
    env env.

(** ** shouldSetLangEnvVariable *)

Inductive DetectLocale : Type := Auto | Off | On.

(** [/\.UTF\-8$/] and [/\.utf8$/] match at a position exactly when the rest
    of the input is the literal. *)
Definition reUTF8 (rest : string) : bool := String.eqb rest ".UTF-8".
Definition reUtf8 (rest : string) : bool := String.eqb rest ".utf8".

(** [/\.euc.+/] matches at a position when the input goes on with [.euc] and
    one more character that [.] accepts. *)
Definition reEuc (rest : string) : bool :=
  match rest with
  | String a0 (String a1 (String a2 (String a3 after))) =>
      Ascii.eqb a0 "." && Ascii.eqb a1 "e" && Ascii.eqb a2 "u" && Ascii.eqb a3 "c" &&
      match after with
      | EmptyString => false
      | _ => negb (startsWithLineTerminator after)
      end
  | _ => false
  end.

Definition shouldSetLangEnvVariable
    (env : IProcessEnvironment) (detectLocale : DetectLocale) : bool :=
  match detectLocale with
  | On => true
  | Auto =>
      match prop env "LANG" with
      | VStr lang =>
          String.eqb lang "" ||
          (Z.eqb (search reUTF8 lang) (-1) &&
           Z.eqb (search reUtf8 lang) (-1) &&
           Z.eqb (search reEuc lang) (-1))
      | _ => true
      end
  | Off => false
  end.

(** ** getLangEnvVariable *)

Definition languageVariants : list (string * string) :=
  [ ("af", "ZA"); ("am", "ET"); ("be", "BY"); ("bg", "BG"); ("ca", "ES");
    ("cs", "CZ"); ("da", "DK"); ("de", "DE"); ("el", "GR"); ("en", "US");
    ("es", "ES"); ("et", "EE"); ("eu", "ES"); ("fi", "FI"); ("fr", "FR");
    ("he", "IL"); ("hr", "HR"); ("hu", "HU"); ("hy", "AM"); ("is", "IS");
    ("it", "IT"); ("ja", "JP"); ("kk", "KZ"); ("ko", "KR"); ("lt", "LT");
    ("nl", "NL"); ("no", "NO"); ("pl", "PL"); ("pt", "BR"); ("ro", "RO");
    ("ru", "RU"); ("sk", "SK"); ("sl", "SI"); ("sr", "YU"); ("sv", "SE");
    ("tr", "TR"); ("uk", "UA"); ("zh", "CN") ].

Fixpoint lookupTable (t : list (string * string)) (k : string) : option string :=
  match t with
  | [] => None
  | (k', v) :: t' => if String.eqb k' k then Some v else lookupTable t' k
  end.

(** [languageVariants] is an object literal, so the members of
    [Object.prototype] are reachable from it.  Each is listed with the text
    that [join] renders it to: the functions as the engine prints a builtin,
    the prototype object itself as any plain object. *)
Definition nativeFunctionText (name : string) : string :=
  "function " ++ name ++ "() { [native code] }".

Definition objectPrototype : list (string * string) :=
  [ ("constructor", nativeFunctionText "Object");
    ("__defineGetter__", nativeFunctionText "__defineGetter__");
    ("__defineSetter__", nativeFunctionText "__defineSetter__");
    ("hasOwnProperty", nativeFunctionText "hasOwnProperty");
    ("__lookupGetter__", nativeFunctionText "__lookupGetter__");
    ("__lookupSetter__", nativeFunctionText "__lookupSetter__");
    ("isPrototypeOf", nativeFunctionText "isPrototypeOf");
    ("propertyIsEnumerable", nativeFunctionText "propertyIsEnumerable");
    ("toString", nativeFunctionText "toString");
    ("valueOf", nativeFunctionText "valueOf");
    ("__proto__", "[object Object]");
    ("toLocaleString", nativeFunctionText "toLocaleString") ].

(** [key in languageVariants]: own or inherited. *)
Definition inLanguageVariants (key : string) : bool :=
  match lookupTable languageVariants key with
  | Some _ => true
  | None =>
      match lookupTable objectPrototype key with
      | Some _ => true
      | None => false
      end
  end.

(** [languageVariants[key]] as [join] renders it ([undefined] renders as the
    empty string). *)
Definition languageVariantsText (key : string) : string :=
  match lookupTable languageVariants key with
  | Some region => region
  | None =>
      match lookupTable objectPrototype key with
      | Some text => text
      | None => EmptyString
      end
  end.

Section Locale.

Variable toUpperCase : string -> string.

Definition getLangEnvVariable (locale : option string) : string :=
  let parts :=
    match locale with
    | Some l => if truthy locale then split "-" l else []
    | None => []
    end in
  match parts with
  | [] => "en_US.UTF-8"
  | [language] =>
      let parts :=
        if inLanguageVariants language
        then parts ++ [languageVariantsText language]
        else parts in
      join "_" parts ++ ".UTF-8"
  | language :: variant :: more =>
      join "_" (language :: toUpperCase variant :: more) ++ ".UTF-8"
  end.

(** ** addTerminalEnvironmentKeys *)

Definition addTerminalEnvironmentKeys
    (env : IProcessEnvironment) (version : option string)
    (locale : option string) (detectLocale : DetectLocale)
  : IProcessEnvironment :=
  let env := setProp env "TERM_PROGRAM" (VStr "vscode") in
  let env :=
    match version with
    | Some v => if truthy version then setProp env "TERM_PROGRAM_VERSION" (VStr v) else env
    | None => env
    end in
  let env :=
    if shouldSetLangEnvVariable env detectLocale
    then setProp env "LANG" (VStr (getLangEnvVariable locale))
    else env in
  setProp env "COLORTERM" (VStr "truecolor").

End Locale.

(** ** Launch configurations and resources *)

Record URI : Type := { fsPath : string }.

Module ShellLaunchConfig.
Record t : Type := {
  cwd : option (string + URI);
  env : option ITerminalEnvironment;
  strictEnv : bool;
  ignoreConfigurationCwd : bool
}.
End ShellLaunchConfig.

Definition IShellLaunchConfig : Type := ShellLaunchConfig.t.

(** ** createTerminalEnvironment *)

Section CreateTerminalEnvironment.

Variable toLowerCase toUpperCase : string -> string.
Variable isWindows : bool.
(** The UI language of the platform. *)
Variable language : option string.
(** [sanitizeProcessEnvironment(env, ...keys)] of [vs/base/common/processes]. *)
Variable sanitizeProcessEnvironment :
  IProcessEnvironment -> list string -> IProcessEnvironment.

(** [shellLaunchConfig.env] as the build leaves it: resolved in place when a
    resolver is supplied. *)
Definition resolvedLaunchEnv
    (shellLaunchConfig : IShellLaunchConfig)
    (variableResolver : option VariableResolver)
  : option ITerminalEnvironment :=
  match variableResolver, ShellLaunchConfig.env shellLaunchConfig with
  | Some r, Some e => Some (resolveConfigurationVariables r e)
  | _, e => e
  end.

(** The working copy [{ ...envFromConfig }], resolved when a resolver is
    supplied. *)
Definition resolvedConfigEnv
    (envFromConfig : option ITerminalEnvironment)
    (variableResolver : option VariableResolver)
  : ITerminalEnvironment :=
  let allowedEnvFromConfig :=
    match envFromConfig with Some e => e | None => [] end in
  match variableResolver with
  | Some r => resolveConfigurationVariables r allowedEnvFromConfig
  | None => allowedEnvFromConfig
  end.

Definition createTerminalEnvironment
    (shellLaunchConfig : IShellLaunchConfig)
    (envFromConfig : option ITerminalEnvironment)
    (variableResolver : option VariableResolver)
    (version : option string)
    (detectLocale : DetectLocale)
    (baseEnv : IProcessEnvironment)
  : IProcessEnvironment :=
  let env : IProcessEnvironment := [] in
  if ShellLaunchConfig.strictEnv shellLaunchConfig then
    mergeNonNullKeys env (ShellLaunchConfig.env shellLaunchConfig)
  else
    let env := mergeNonNullKeys env (Some baseEnv) in
    let allowedEnvFromConfig := resolvedConfigEnv envFromConfig variableResolver in
    let launchEnv := resolvedLaunchEnv shellLaunchConfig variableResolver in
    let env :=
      sanitizeProcessEnvironment env ["VSCODE_IPC_HOOK_CLI"; "VSCODE_PROXY_URI"] in
    let env := mergeEnvironments toLowerCase isWindows env (Some allowedEnvFromConfig) in
    let env := mergeEnvironments toLowerCase isWindows env launchEnv in
    addTerminalEnvironmentKeys toUpperCase env version language detectLocale.

End CreateTerminalEnvironment.

(** Modelled from the spec: [sanitizeProcessEnvironment] is imported from
    [vs/base/common/processes], which is not part of the sources at hand; the
    specification has it remove the named keys in place. *)
Definition sanitizeProcessEnvironmentSpec
    (env : IProcessEnvironment) (names : list string) : IProcessEnvironment :=
  filter (fun e => negb (existsb (String.eqb (fst e)) names)) env.

(** ** getCwd and _resolveCwd *)

Section Cwd.

(** [sanitizeCwd] of [vs/platform/terminal/common/terminalEnvironment] and
    [isAbsolute], [join] of [vs/base/common/path]. *)
Variable sanitizeCwd : string -> string.
Variable isAbsolute : string -> bool.
Variable pathJoin : string -> string -> string.

(** A rejection of the resolver is logged and yields [undefined]. *)
Definition _resolveCwd
    (cwd : string) (variableResolver : option VariableResolver)
  : option string :=
  match variableResolver with
  | Some r => r cwd
  | None => Some cwd
  end.

(** [if (shell.cwd)]: a non-empty string or any object passes. *)
Definition ifSet (c : option (string + URI)) : option (string + URI) :=
  match c with
  | Some (inl s) => if String.eqb s "" then None else c
  | _ => c
  end.

Definition getCwd
    (shell : IShellLaunchConfig)
    (userHome : option string)
    (variableResolver : option VariableResolver)
    (root : option URI)
    (customCwd : option string)
  : string :=
  match ifSet (ShellLaunchConfig.cwd shell) with
  | Some c =>
      let unresolved := match c with inl s => s | inr u => fsPath u end in
      let resolved := _resolveCwd unresolved variableResolver in
      sanitizeCwd (orElse resolved unresolved)
  | None =>
      let cwd : option string :=
        if negb (ShellLaunchConfig.ignoreConfigurationCwd shell) && truthy customCwd then
          let customCwd :=
            match variableResolver, customCwd with
            | Some _, Some c' => _resolveCwd c' variableResolver
            | _, _ => customCwd
            end in
          match customCwd with
          | Some c' =>
              if truthy customCwd then
                if isAbsolute c' then Some c'
                else match root with
                     | Some r => Some (pathJoin (fsPath r) c')
                     | None => None
                     end
              else None
          | None => None
          end
        else None in
      let cwd :=
        if truthy cwd then orElse cwd ""
        else match root with
             | Some r => fsPath r
             | None => orElse userHome ""
             end in
      sanitizeCwd cwd
  end.

End Cwd.

(** ** preparePathForShell *)

Inductive OperatingSystem : Type := Windows | Macintosh | Linux.

(** [TerminalShellType]: the two members the function tells apart, and the
    others. *)
Inductive TerminalShellType : Type := GitBash | Wsl | OtherShellType.

(** [Pick<ITerminalBackend, 'getWslPath'>]: the path and the direction. *)
Record ITerminalBackend : Type := { getWslPath : string -> string -> string }.

Definition isWindowsOS (os : option OperatingSystem) : bool :=
  match os with Some Windows => true | _ => false end.

Definition doubleQuote : string := String (ascii_of_nat 34) EmptyString.

Section PreparePath.

(** [path.basename] of [vs/base/common/path] and [escapeNonWindowsPath] of
    [vs/platform/terminal/common/terminalEnvironment]. *)
Variable basename : string -> string -> string.
Variable escapeNonWindowsPath : string -> string.
Variable toLowerCase : string -> string.

(** The path the function works on: the resource itself, or its [fsPath]
    with the separators of the backend. *)
Definition originalPathOf
    (resource : string + URI) (os : option OperatingSystem)
    (isWindowsFrontend : bool) : string :=
  match resource with
  | inl s => s
  | inr u =>
      let originalPath := fsPath u in
      if isWindowsFrontend && negb (isWindowsOS os) then
        replaceAll "\" "/" originalPath
      else if negb isWindowsFrontend && isWindowsOS os then
        replaceAll "/" "\" originalPath
      else originalPath
  end.

Definition isPowerShell (executable title : string) : bool :=
  let pathBasename := basename executable ".exe" in
  String.eqb pathBasename "pwsh" ||
  String.eqb title "pwsh" ||
  String.eqb pathBasename "powershell" ||
  String.eqb title "powershell".

(** [backend?.getWslPath(originalPath, 'win-to-unix') || originalPath]: the
    promise, when there is a backend, is an object and so truthy. *)
Definition wslPathOr (backend : option ITerminalBackend) (originalPath : string)
  : string :=
  match backend with
  | Some b => getWslPath b originalPath "win-to-unix"
  | None => originalPath
  end.

Definition preparePathForShell
    (resource : string + URI)
    (executable : option string)
    (title : string)
    (shellType : option TerminalShellType)
    (backend : option ITerminalBackend)
    (os : option OperatingSystem)
    (isWindowsFrontend : bool)
  : string :=
  let originalPath := originalPathOf resource os isWindowsFrontend in
  match executable with
  | None => originalPath
  | Some executable =>
      if String.eqb executable "" then originalPath
      else
        let hasSpace := includes originalPath " " in
        let hasParens := includes originalPath "(" || includes originalPath ")" in
        let isPowerShell := isPowerShell executable title in
        if isPowerShell && (hasSpace || includes originalPath "'") then
          "& '" ++ replaceAll "'" "''" originalPath ++ "'"
        else if hasParens && isPowerShell then
          "& '" ++ originalPath ++ "'"
        else if isWindowsOS os then
          match shellType with
          | Some GitBash => escapeNonWindowsPath (replaceAll "\" "/" originalPath)
          | Some Wsl => wslPathOr backend originalPath
          | Some _ =>
              if hasSpace then doubleQuote ++ originalPath ++ doubleQuote
              else originalPath
          | None =>
              let lowerExecutable := toLowerCase executable in
              if includes lowerExecutable "wsl" ||
                 (includes lowerExecutable "bash.exe" &&
                  negb (includes (toLowerCase lowerExecutable) "git"))
              then wslPathOr backend originalPath
              else if hasSpace then doubleQuote ++ originalPath ++ doubleQuote
              else originalPath
          end
        else escapeNonWindowsPath originalPath
  end.

End PreparePath.

(** Modelled from the spec: [path.basename] belongs to [vs/base/common/path],
    which is not part of the sources at hand; the specification has it give
    the executable's base name with the extension stripped.  This is the
    POSIX flavour: the text after the last slash, without the suffix when the
    name ends with it and is longer than it. *)
Fixpoint lastSegment (s : string) : string :=
  match s with
  | EmptyString => EmptyString
  | String a s' =>
      if includes s' "/" then lastSegment s'
      else if Ascii.eqb a "/" then s' else s
  end.

Fixpoint stripSuffix (suffix s : string) : string :=
  match s with
  | EmptyString => EmptyString
  | String a s' =>
      if String.eqb s' suffix then String a EmptyString
      else String a (stripSuffix suffix s')
  end.

Definition basenameSpec (path ext : string) : string :=
  stripSuffix ext (lastSegment path).

(** ** createVariableResolver and getWorkspaceForTerminal *)

Section Workspace.

(** [IWorkspaceFolder] of [vs/platform/workspace/common/workspace]: the
    functions only pass its values on. *)
Variable IWorkspaceFolder : Type.

(** The one method of [IConfigurationResolverService] in use. *)
Record IConfigurationResolverService : Type := {
  resolveWithEnvironment :
    IProcessEnvironment -> option IWorkspaceFolder -> string -> option string
}.

Definition createVariableResolver
    (lastActiveWorkspace : option IWorkspaceFolder)
    (env : IProcessEnvironment)
    (configurationResolverService : option IConfigurationResolverService)
  : option VariableResolver :=
  match configurationResolverService with
  | None => None
  | Some service =>
      Some (fun str => resolveWithEnvironment service env lastActiveWorkspace str)
  end.

(** [getWorkspaceFolder] answers [null] outside of every folder. *)
Record IWorkspaceContextService : Type := {
  getWorkspaceFolder : URI -> option IWorkspaceFolder
}.

Record IHistoryService : Type := {
  getLastActiveWorkspaceRoot : option URI
}.

(** [URI.parse] of [vs/base/common/uri]. *)
Variable parse : string -> URI.

Definition getWorkspaceForTerminal
    (cwd : option (URI + string))
    (workspaceContextService : IWorkspaceContextService)
    (historyService : IHistoryService)
  : option IWorkspaceFolder :=
  let cwdUri :=
    match cwd with
    | Some (inr s) => Some (parse s)
    | Some (inl u) => Some u
    | None => None
    end in
  let workspaceFolder :=
    match cwdUri with
    | Some u => getWorkspaceFolder workspaceContextService u
    | None => None
    end in
  match workspaceFolder with
  | Some f => Some f
  | None =>
      let activeWorkspaceRootUri := getLastActiveWorkspaceRoot historyService in
      match activeWorkspaceRootUri with
      | Some r => getWorkspaceFolder workspaceContextService r
      | None => None
      end
  end.

End Workspace.

(** ** Vocabulary of the statements *)

(** The form under which the merge compares keys: lowercase on Windows, the
    key itself elsewhere. *)
Definition keyForm (toLowerCase : string -> string) (isWindows : bool)
    (k : string) : string :=
  if isWindows then toLowerCase k else k.

Section KeyForm.

Variable form : string -> string.

(** The value under the first key that has the form of [k]: what a
    case-aware reader of the environment finds for [k]. *)
Fixpoint lookupBy (o : object) (k : string) : option value :=
  match o with
  | [] => None
  | (k', v) :: o' =>
      if String.eqb (form k') (form k) then Some v else lookupBy o' k
  end.

(** [a] is the first of the keys [ks] that has the form of [k]. *)
Definition FirstMatch (ks : list string) (k a : string) : Prop :=
  exists pre post,
    ks = pre ++ a :: post /\ form a = form k /\
    Forall (fun x => form x <> form k) pre.

(** None of the keys [ks] has the form of [k]. *)
Definition NoMatch (ks : list string) (k : string) : Prop :=
  Forall (fun x => form x <> form k) ks.

(** No two keys of the object share a form. *)
Definition distinctKeys (o : object) : Prop := NoDup (map form (keys o)).

(** The overlay has no say on [k]: every entry of that form is [undefined]. *)
Definition silentOn (o : object) (k : string) : Prop :=
  Forall (fun e => form (fst e) = form k -> snd e = VUndefined) o.

End KeyForm.

(** The effect of one overlay entry on the environment, the keys being
    compared by their [form]. *)
Definition mergeEntry (form : string -> string)
    (env : IProcessEnvironment) (e : string * value) : IProcessEnvironment :=
  match snd e with
  | VUndefined => env
  | v => _mergeEnvironmentValue env (findActualKey form (fst e) (keys env) (fst e)) v
  end.

(** A well-formed object: no key occurs twice. *)
Definition wellFormed (o : object) : Prop := NoDup (keys o).

Definition allStrings (o : object) : Prop :=
  Forall (fun e => isStr (snd e) = true) o.

(** The keys that [addTerminalEnvironmentKeys] may write. *)
Definition markerKeys : list string :=
  ["TERM_PROGRAM"; "TERM_PROGRAM_VERSION"; "LANG"; "COLORTERM"].

(** [k] is none of the marker keys, the keys being compared by their form. *)
Definition notMarker (form : string -> string) (k : string) : Prop :=
  Forall (fun m => form m <> form k) markerKeys.

(** What is assumed of [sanitizeProcessEnvironment]: it removes entries,
    chosen by their keys, and does nothing else. *)
Definition onlyRemoves
    (sanitize : IProcessEnvironment -> list string -> IProcessEnvironment)
  : Prop :=
  forall env names, exists keep : string -> bool,
    sanitize env names = filter (fun e => keep (fst e)) env.

(** The entry-wise effect of [resolveConfigurationVariables]. *)
Definition resolveValue (r : VariableResolver) (v : value) : value :=
  match v with
  | VStr s => match r s with Some s' => VStr s' | None => VStr s end
  | _ => v
  end.

(** An overlay as the build merges it: resolved when a resolver is supplied,
    as it is otherwise. *)
Definition resolved (variableResolver : option VariableResolver) (v : value)
  : value :=
  match variableResolver with
  | Some r => resolveValue r v
  | None => v
  end.

Definition resolvedEntries (variableResolver : option VariableResolver)
    (o : object) : object :=
  map (fun e => (fst e, resolved variableResolver (snd e))) o.

(** The object that [envFromConfig] spreads to. *)
Definition spread (o : option object) : object :=
  match o with Some e => e | None => [] end.

(** The keys that the build hands to the sanitizer. *)
Definition sanitizedNames : list string :=
  ["VSCODE_IPC_HOOK_CLI"; "VSCODE_PROXY_URI"].

Definition EndsWith (s suffix : string) : Prop :=
  exists pre : string, s = (pre ++ suffix)%string.

Definition Contains (s sub : string) : Prop :=
  exists pre post : string, s = (pre ++ sub ++ post)%string.

(** [s] contains [.euc] followed by a character that is not a line break. *)
Definition ContainsEucThenChar (s : string) : Prop :=
  exists (pre : string) (c : ascii) (post : string),
    s = (pre ++ ".euc" ++ String c post)%string /\
    startsWithLineTerminator (String c post) = false.

(** The tag has no dash: it is a single segment. *)
Fixpoint noDash (s : string) : bool :=
  match s with
  | EmptyString => true
  | String a s' => negb (Ascii.eqb a "-") && noDash s'
  end.

(** ** Inputs of the examples *)

Definition mkLaunch (env : option ITerminalEnvironment) (strictEnv : bool)
  : IShellLaunchConfig :=
  {| ShellLaunchConfig.cwd := None;
     ShellLaunchConfig.env := env;
     ShellLaunchConfig.strictEnv := strictEnv;
     ShellLaunchConfig.ignoreConfigurationCwd := false |}.

Definition mkLaunchCwd (cwd : option (string + URI)) : IShellLaunchConfig :=
  {| ShellLaunchConfig.cwd := cwd;
     ShellLaunchConfig.env := None;
     ShellLaunchConfig.strictEnv := false;
     ShellLaunchConfig.ignoreConfigurationCwd := false |}.

Definition exBase : IProcessEnvironment :=
  [("PATH", VStr "/bin"); ("HOME", VStr "/h"); ("VSCODE_PROXY_URI", VStr "u")].

Definition exConfig : ITerminalEnvironment :=
  [("Path", VStr "/cfg"); ("EDITOR", VNull); ("VSCODE_IPC_HOOK_CLI", VStr "hook")].

Definition exRequested : ITerminalEnvironment :=
  [("path", VStr "${home}"); ("home", VNull); ("VSCODE_PROXY_URI", VStr "p")].

(** A resolver that replaces [${home}] and rejects everything else. *)
Definition homeResolver : VariableResolver :=
  fun s => if String.eqb s "${home}" then Some "/home/u" else None.

(** A resolver for which every variable is empty. *)
Definition emptyResolver : VariableResolver := fun _ => Some "".

(** A resolver that rejects every string. *)
Definition rejectAll : VariableResolver := fun _ => None.

(** A configuration resolver service that fails on every string. *)
Definition failingService (IWorkspaceFolder : Type)
  : IConfigurationResolverService IWorkspaceFolder :=
  {| resolveWithEnvironment := fun _ _ _ => None |}.

(** The fallback of [getCwd]: the workspace root, else the user home, else
    the empty string. *)
Definition rootOrHome (root : option URI) (userHome : option string) : string :=
  match root with
  | Some r => fsPath r
  | None => orElse userHome ""
  end.

(** What [_resolveCwd] leaves of the configured cwd: nothing when the
    resolver rejects it or empties it. *)
Definition usable (resolution : option string) : option string :=
  match resolution with
  | Some s => if String.eqb s "" then None else Some s
  | None => None
  end.

Definition launchWith (cwd : option (string + URI)) (ignoreConfigurationCwd : bool)
  : IShellLaunchConfig :=
  {| ShellLaunchConfig.cwd := cwd;
     ShellLaunchConfig.env := None;
     ShellLaunchConfig.strictEnv := false;
     ShellLaunchConfig.ignoreConfigurationCwd := ignoreConfigurationCwd |}.

(** A locale name in which [.euc] is followed by a line feed. *)
Definition eucThenLineFeed : string :=
  ("x.euc" ++ String "010"%char "y")%string.

(** The effect of an overlay on what a reader finds under a key. *)
Definition overlaid (overlay base : option value) : option value :=
  match overlay with
  | Some (VStr s) => Some (VStr s)
  | Some VNull => None
  | _ => base
  end.

(** The one write of an overlay that the host drops: the overlay holds a
    string under its own key [__proto__], [k] has the form of that key, and
    the base has no key of that form to receive the string. *)
Definition protoDropped (form : string -> string)
    (other parent : object) (k : string) : bool :=
  match getOwn other "__proto__" with
  | Some (VStr _) =>
      String.eqb (form k) (form "__proto__") &&
      match lookupBy form parent k with
      | Some _ => false
      | None => true
      end
  | _ => false
  end.

(** * Properties *)

(** ** Strings *)

Lemma eqb_true (s t : string) : String.eqb s t = true -> s = t.
Proof. apply String.eqb_eq. Qed.

Lemma eqb_false (s t : string) : String.eqb s t = false -> s <> t.
Proof. apply String.eqb_neq. Qed.

Lemma eqb_of_neq (s t : string) : s <> t -> String.eqb s t = false.
Proof. apply String.eqb_neq. Qed.

Ltac case_eqb s t :=
  let E := fresh "E" in
  destruct (String.eqb_spec s t) as [E | E].

Lemma append_assoc (a b c : string) :
  ((a ++ b) ++ c)%string = (a ++ (b ++ c))%string.
Proof. induction a as [| x a IH]; simpl; [reflexivity | now rewrite IH]. Qed.

(** ** Objects *)

Lemma keys_app (o1 o2 : object) : keys (o1 ++ o2) = keys o1 ++ keys o2.
Proof. apply map_app. Qed.

Lemma getOwn_None (o : object) (k : string) :
  getOwn o k = None <-> ~ In k (keys o).
Proof.
  induction o as [| [k' v] o IH]; simpl.
  - tauto.
  - case_eqb k' k.
    + split; [discriminate | intros H; exfalso; apply H; now left].
    + rewrite IH. tauto.
Qed.

Lemma getOwn_In (o : object) (k : string) (v : value) :
  getOwn o k = Some v -> In (k, v) o.
Proof.
  induction o as [| [k' v'] o IH]; simpl; [discriminate |].
  case_eqb k' k.
  - intros [= ->]. subst. now left.
  - intros H. right. auto.
Qed.

Lemma In_getOwn (o : object) (k : string) (v : value) :
  wellFormed o -> In (k, v) o -> getOwn o k = Some v.
Proof.
  unfold wellFormed.
  induction o as [| [k' v'] o IH]; simpl; [tauto |].
  intros ND [H | H].
  - inversion H; subst. now rewrite String.eqb_refl.
  - inversion ND as [| ? ? Hn ND']; subst.
    case_eqb k' k.
    + subst. exfalso. apply Hn. change k with (fst (k, v)). now apply in_map.
    + auto.
Qed.

Lemma prop_entry (o : object) (e : string * value) :
  wellFormed o -> In e o -> prop o (fst e) = snd e.
Proof.
  intros W H. destruct e as [k v]. unfold prop. simpl.
  now rewrite (In_getOwn o k v W H).
Qed.

Lemma hasOwn_true (o : object) (k : string) :
  hasOwn o k = true <-> In k (keys o).
Proof.
  unfold hasOwn. pose proof (getOwn_None o k) as H.
  destruct (getOwn o k).
  - split; [intros _ | reflexivity].
    destruct (in_dec string_dec k (keys o)) as [I | I]; [assumption |].
    apply H in I. discriminate I.
  - split; [discriminate |]. intros I. exfalso. now apply H.
Qed.

Lemma hasOwn_false (o : object) (k : string) :
  hasOwn o k = false <-> ~ In k (keys o).
Proof.
  rewrite <- hasOwn_true. destruct (hasOwn o k); split; congruence.
Qed.

Lemma keys_update (o : object) (k : string) (v : value) :
  keys (update o k v) = keys o.
Proof.
  induction o as [| [k' v'] o IH]; simpl; [reflexivity |].
  case_eqb k' k; simpl; [reflexivity | now f_equal].
Qed.

Lemma getOwn_update (o : object) (k k' : string) (v : value) :
  In k (keys o) ->
  getOwn (update o k v) k' = if String.eqb k k' then Some v else getOwn o k'.
Proof.
  induction o as [| [k0 v0] o IH]; simpl; [tauto |].
  intros H. case_eqb k0 k; simpl.
  - subst. case_eqb k k'; reflexivity.
  - rewrite IH by (destruct H; [contradiction | assumption]).
    case_eqb k0 k'; [| reflexivity].
    subst. now rewrite (eqb_of_neq k k') by congruence.
Qed.

Lemma update_middle (pre post : object) (k : string) (v v' : value) :
  ~ In k (keys pre) ->
  update (pre ++ (k, v) :: post) k v' = pre ++ (k, v') :: post.
Proof.
  induction pre as [| [k0 v0] pre IH]; simpl; intros H.
  - now rewrite String.eqb_refl.
  - rewrite eqb_of_neq by tauto. f_equal. apply IH. tauto.
Qed.

Lemma insertIndex_split (n : N) (k : string) (v : value) (o : object) :
  exists pre post, o = pre ++ post /\ insertIndex n k v o = pre ++ (k, v) :: post.
Proof.
  induction o as [| [k' v'] o (pre & post & E & I)]; simpl.
  - now exists [], [].
  - destruct (arrayIndex k') as [m |]; [destruct (m <? n)%N |].
    + exists ((k', v') :: pre), post. simpl. now rewrite <- E, I.
    + now exists [], ((k', v') :: o).
    + now exists [], ((k', v') :: o).
Qed.

Lemma define_split (o : object) (k : string) (v : value) :
  exists pre post, o = pre ++ post /\ define o k v = pre ++ (k, v) :: post.
Proof.
  unfold define. destruct (arrayIndex k).
  - apply insertIndex_split.
  - exists o, []. now rewrite app_nil_r.
Qed.

(** The three outcomes of an assignment. *)
Lemma setProp_cases (o : object) (k : string) (v : value) :
  (In k (keys o) /\ setProp o k v = update o k v) \/
  (~ In k (keys o) /\ k = "__proto__" /\ setProp o k v = o) \/
  (~ In k (keys o) /\ k <> "__proto__" /\
   exists pre post, o = pre ++ post /\ setProp o k v = pre ++ (k, v) :: post).
Proof.
  unfold setProp. destruct (hasOwn o k) eqn:O.
  - left. apply hasOwn_true in O. tauto.
  - right. apply hasOwn_false in O. case_eqb k "__proto__".
    + left. tauto.
    + right. split; [assumption |]. split; [assumption |]. apply define_split.
Qed.

Lemma setProp_proto (o : object) (v : value) :
  ~ In "__proto__" (keys o) -> setProp o "__proto__" v = o.
Proof.
  intros H. unfold setProp. apply hasOwn_false in H. now rewrite H.
Qed.

Lemma setProp_fresh (o : object) (k : string) (v : value) :
  ~ In k (keys o) -> k <> "__proto__" -> arrayIndex k = None ->
  setProp o k v = o ++ [(k, v)].
Proof.
  intros H P A. unfold setProp, define. apply hasOwn_false in H.
  now rewrite H, (eqb_of_neq k "__proto__") by assumption; rewrite A.
Qed.

Lemma setProp_own (o : object) (k : string) (v : value) :
  In k (keys o) -> setProp o k v = update o k v.
Proof.
  intros H. unfold setProp. apply hasOwn_true in H. now rewrite H.
Qed.

Lemma keys_setProp_In (o : object) (k : string) (v : value) :
  In k (keys o) -> keys (setProp o k v) = keys o.
Proof.
  intros H. rewrite setProp_own by assumption. apply keys_update.
Qed.

Lemma keys_setProp (o : object) (k : string) (v : value) :
  keys (setProp o k v) = keys o \/
  (~ In k (keys o) /\ k <> "__proto__" /\
   exists pre post,
     keys o = pre ++ post /\ keys (setProp o k v) = pre ++ k :: post).
Proof.
  destruct (setProp_cases o k v)
    as [(I & E) | [(N & P & E) | (N & P & pre & post & Eo & E)]].
  - left. rewrite E. apply keys_update.
  - left. now rewrite E.
  - right. split; [assumption |]. split; [assumption |].
    exists (keys pre), (keys post). rewrite E, Eo.
    unfold keys. now rewrite !map_app.
Qed.

Lemma getOwn_insert (pre post : object) (k k' : string) (v : value) :
  ~ In k (keys (pre ++ post)) ->
  getOwn (pre ++ (k, v) :: post) k' =
  if String.eqb k k' then Some v else getOwn (pre ++ post) k'.
Proof.
  induction pre as [| [k0 v0] pre IH]; simpl; intros H.
  - reflexivity.
  - rewrite IH by tauto. case_eqb k0 k'; [| reflexivity].
    subst. now rewrite (eqb_of_neq k k') by (intros ->; tauto).
Qed.

Lemma getOwn_setProp (o : object) (k k' : string) (v : value) :
  getOwn (setProp o k v) k' =
  if String.eqb k k' && writable o k then Some v else getOwn o k'.
Proof.
  unfold writable.
  destruct (setProp_cases o k v)
    as [(I & E) | [(N & P & E) | (N & P & pre & post & Eo & E)]]; rewrite E.
  - rewrite getOwn_update by assumption. apply hasOwn_true in I.
    rewrite I. simpl. now rewrite andb_true_r.
  - apply hasOwn_false in N. rewrite N. subst k. simpl.
    now rewrite andb_false_r.
  - rewrite (eqb_of_neq k "__proto__") by assumption.
    rewrite orb_true_r, andb_true_r.
    subst o. now apply getOwn_insert.
Qed.

(** Away from [__proto__] an assignment is always read back. *)
Lemma getOwn_setProp_plain (o : object) (k k' : string) (v : value) :
  k <> "__proto__" ->
  getOwn (setProp o k v) k' = if String.eqb k k' then Some v else getOwn o k'.
Proof.
  intros P. rewrite getOwn_setProp. unfold writable.
  rewrite (eqb_of_neq k "__proto__") by assumption.
  now rewrite orb_true_r, andb_true_r.
Qed.

Lemma getOwn_deleteProp (o : object) (k k' : string) :
  getOwn (deleteProp o k) k' = if String.eqb k k' then None else getOwn o k'.
Proof.
  unfold deleteProp.
  induction o as [| [k0 v0] o IH]; simpl.
  - now destruct (String.eqb k k').
  - case_eqb k0 k; simpl.
    + subst. rewrite IH. case_eqb k k'; reflexivity.
    + rewrite IH. case_eqb k0 k'; [| reflexivity].
      subst. now rewrite (eqb_of_neq k k') by congruence.
Qed.

Lemma deleteProp_absent (o : object) (k : string) :
  ~ In k (keys o) -> deleteProp o k = o.
Proof.
  unfold deleteProp.
  induction o as [| [k' v'] o IH]; simpl; [reflexivity |].
  intros H. case_eqb k' k; simpl.
  - exfalso. apply H. now left.
  - f_equal. apply IH. tauto.
Qed.

Lemma NoDup_insert {A : Type} (pre post : list A) (x : A) :
  NoDup (pre ++ post) -> ~ In x (pre ++ post) -> NoDup (pre ++ x :: post).
Proof.
  intros ND H. apply (Permutation_NoDup (Permutation_middle pre post x)).
  now constructor.
Qed.

Lemma hasOwn_setProp (o : object) (k k' : string) (v : value) :
  hasOwn (setProp o k v) k' =
  if String.eqb k k' && writable o k then true else hasOwn o k'.
Proof.
  unfold hasOwn at 1. rewrite getOwn_setProp.
  now destruct (String.eqb k k' && writable o k).
Qed.

Lemma writable_setProp (o : object) (k k' : string) (v : value) :
  writable (setProp o k v) k' = writable o k'.
Proof.
  unfold writable at 1. rewrite hasOwn_setProp.
  case_eqb k k'; simpl; [subst k' | reflexivity].
  unfold writable. destruct (hasOwn o k); simpl; [reflexivity |].
  now destruct (negb (String.eqb k "__proto__")).
Qed.

Lemma wellFormed_setProp (o : object) (k : string) (v : value) :
  wellFormed o -> wellFormed (setProp o k v).
Proof.
  unfold wellFormed. intros W.
  destruct (keys_setProp o k v) as [-> | (N & _ & pre & post & Eo & ->)];
    [assumption |].
  rewrite Eo in W, N. now apply NoDup_insert.
Qed.

Lemma allStrings_update (o : object) (k s : string) :
  allStrings o -> allStrings (update o k (VStr s)).
Proof.
  unfold allStrings.
  induction o as [| [k' v'] o IH]; simpl; intros H.
  - constructor.
  - inversion H; subst. case_eqb k' k; constructor; auto.
Qed.

Lemma allStrings_setProp (o : object) (k s : string) :
  allStrings o -> allStrings (setProp o k (VStr s)).
Proof.
  intros H.
  destruct (setProp_cases o k (VStr s))
    as [(I & E) | [(N & P & E) | (N & P & pre & post & Eo & E)]]; rewrite E.
  - now apply allStrings_update.
  - assumption.
  - subst o. unfold allStrings in *. apply Forall_app in H. destruct H as [H1 H2].
    apply Forall_app. split; [assumption |]. now constructor.
Qed.

Lemma allStrings_filter (o : object) (f : string * value -> bool) :
  allStrings o -> allStrings (filter f o).
Proof.
  unfold allStrings. intros H. apply Forall_forall. intros e He.
  apply filter_In in He. destruct He as [He _].
  rewrite Forall_forall in H. auto.
Qed.

Lemma allStrings_deleteProp (o : object) (k : string) :
  allStrings o -> allStrings (deleteProp o k).
Proof. apply allStrings_filter. Qed.

(** ** Keys compared by their form *)

Section FormFacts.

Variable form : string -> string.

Lemma findActualKey_form (k : string) (ks : list string) (d : string) :
  form d = form k -> form (findActualKey form k ks d) = form k.
Proof.
  intros Hd. induction ks as [| x ks IH]; simpl; [assumption |].
  case_eqb (form k) (form x); auto.
Qed.

Lemma findActualKey_FirstMatch (k : string) (ks : list string) (d a : string) :
  FirstMatch form ks k a -> findActualKey form k ks d = a.
Proof.
  intros (pre & post & -> & Ha & Hpre).
  induction pre as [| x pre IH]; simpl.
  - now rewrite Ha, String.eqb_refl.
  - inversion Hpre; subst.
    rewrite eqb_of_neq by congruence. auto.
Qed.

Lemma findActualKey_NoMatch (k : string) (ks : list string) (d : string) :
  NoMatch form ks k -> findActualKey form k ks d = d.
Proof.
  unfold NoMatch. induction ks as [| x ks IH]; simpl; [reflexivity |].
  intros H. inversion H; subst.
  rewrite eqb_of_neq by congruence. auto.
Qed.

Lemma match_or_not (ks : list string) (k : string) :
  (exists a, FirstMatch form ks k a) \/ NoMatch form ks k.
Proof.
  induction ks as [| x ks IH].
  - right. constructor.
  - case_eqb (form x) (form k).
    + left. exists x, [], ks. repeat split; auto.
    + destruct IH as [(a & pre & post & -> & Ha & Hpre) | Hn].
      * left. exists a, (x :: pre), post. repeat split; auto.
      * right. now constructor.
Qed.

Lemma FirstMatch_In (ks : list string) (k a : string) :
  FirstMatch form ks k a -> In a ks.
Proof.
  intros (pre & post & -> & _). apply in_or_app. right. now left.
Qed.

Lemma NoMatch_not_In (ks : list string) (k : string) :
  NoMatch form ks k -> ~ In k ks.
Proof.
  unfold NoMatch. rewrite Forall_forall. intros H Hin.
  now apply (H k Hin).
Qed.

Lemma lookupBy_NoMatch (o : object) (k : string) :
  NoMatch form (keys o) k -> lookupBy form o k = None.
Proof.
  unfold NoMatch.
  induction o as [| [k0 v0] o IH]; simpl; [reflexivity |].
  intros H. inversion H; subst.
  rewrite eqb_of_neq by assumption. auto.
Qed.

Lemma distinctKeys_filter (o : object) (f : string * value -> bool) :
  distinctKeys form o -> distinctKeys form (filter f o).
Proof.
  unfold distinctKeys.
  induction o as [| e o IH]; simpl; [auto |].
  intros ND. inversion ND as [| ? ? Hn ND']; subst.
  destruct (f e); simpl; [| auto].
  constructor; [| auto].
  intros Hin. apply Hn.
  unfold keys in *. rewrite map_map in *.
  apply in_map_iff in Hin. destruct Hin as (x & Hx & Hin).
  apply filter_In in Hin. apply in_map_iff. exists x. tauto.
Qed.

Lemma NoMatch_filter (o : object) (f : string * value -> bool) (k : string) :
  NoMatch form (keys o) k -> NoMatch form (keys (filter f o)) k.
Proof.
  unfold NoMatch. rewrite !Forall_forall. intros H x Hx.
  apply H. unfold keys in *.
  apply in_map_iff in Hx. destruct Hx as (e & <- & He).
  apply filter_In in He. apply in_map. tauto.
Qed.

Lemma distinctKeys_NoMatch (k0 : string) (v0 : value) (o : object) (k : string) :
  distinctKeys form ((k0, v0) :: o) -> form k0 = form k ->
  NoMatch form (keys o) k.
Proof.
  unfold distinctKeys, NoMatch. simpl. intros ND E.
  inversion ND as [| ? ? Hn _]; subst.
  apply Forall_forall. intros x Hx Hf. apply Hn.
  rewrite E, <- Hf. now apply in_map.
Qed.

(** *** Writing under the key the scan selects *)

Lemma lookupBy_update_actual (o : object) (k d k' : string) (v : value) :
  form d = form k -> In (findActualKey form k (keys o) d) (keys o) ->
  lookupBy form (update o (findActualKey form k (keys o) d) v) k' =
  if String.eqb (form k') (form k) then Some v else lookupBy form o k'.
Proof.
  intros Hd. induction o as [| [k0 v0] o IH]; simpl; [tauto |].
  case_eqb (form k) (form k0).
  - intros _. rewrite String.eqb_refl. simpl. rewrite <- E.
    rewrite (String.eqb_sym (form k) (form k')).
    now destruct (String.eqb (form k') (form k)).
  - assert (Hk0 : k0 <> findActualKey form k (keys o) d).
    { intros ->. apply E. symmetry. now apply findActualKey_form. }
    intros [H | H]; [contradiction |].
    rewrite (eqb_of_neq _ _ Hk0). simpl. rewrite IH by assumption.
    case_eqb (form k0) (form k'); [| reflexivity].
    rewrite eqb_of_neq by congruence. reflexivity.
Qed.

Lemma lookupBy_insert (pre post : object) (a k' : string) (v : value) :
  NoMatch form (keys (pre ++ post)) a ->
  lookupBy form (pre ++ (a, v) :: post) k' =
  if String.eqb (form k') (form a) then Some v
  else lookupBy form (pre ++ post) k'.
Proof.
  unfold NoMatch.
  induction pre as [| [k0 v0] pre IH]; simpl; intros H.
  - now rewrite (String.eqb_sym (form a) (form k')).
  - inversion H; subst. rewrite IH by assumption.
    case_eqb (form k0) (form k'); [| reflexivity].
    now rewrite eqb_of_neq by congruence.
Qed.

Lemma actual_absent_NoMatch (o : object) (k d : string) :
  ~ In (findActualKey form k (keys o) d) (keys o) ->
  NoMatch form (keys o) k /\ findActualKey form k (keys o) d = d.
Proof.
  intros H. destruct (match_or_not (keys o) k) as [(a & Ha) | Hn].
  - exfalso. apply H. rewrite (findActualKey_FirstMatch _ _ _ _ Ha).
    eapply FirstMatch_In; eauto.
  - split; [assumption | now apply findActualKey_NoMatch].
Qed.

Lemma NoMatch_sameForm (ks : list string) (k a : string) :
  form a = form k -> NoMatch form ks k -> NoMatch form ks a.
Proof. unfold NoMatch. intros E H. now rewrite E. Qed.

Lemma lookupBy_set_actual (o : object) (k d k' : string) (v : value) :
  form d = form k ->
  lookupBy form (setProp o (findActualKey form k (keys o) d) v) k' =
  if String.eqb (form k') (form k) &&
     writable o (findActualKey form k (keys o) d)
  then Some v else lookupBy form o k'.
Proof.
  intros Hd. unfold writable.
  destruct (setProp_cases o (findActualKey form k (keys o) d) v)
    as [(I & E) | [(N & P & E) | (N & P & pre & post & Eo & E)]]; rewrite E.
  - rewrite lookupBy_update_actual by assumption.
    apply hasOwn_true in I. rewrite I. simpl. now rewrite andb_true_r.
  - apply hasOwn_false in N. rewrite N, P. simpl. now rewrite andb_false_r.
  - rewrite (eqb_of_neq _ "__proto__") by assumption.
    rewrite orb_true_r, andb_true_r.
    destruct (actual_absent_NoMatch o k d N) as (Hn & Ea).
    rewrite Ea. rewrite lookupBy_insert.
    + now rewrite Hd, <- Eo.
    + rewrite <- Eo. now apply (NoMatch_sameForm _ k).
Qed.

Lemma writable_actual (o : object) (k : string) :
  k <> "__proto__" -> writable o (findActualKey form k (keys o) k) = true.
Proof.
  intros P. unfold writable.
  destruct (match_or_not (keys o) k) as [(a & Ha) | Hn].
  - rewrite (findActualKey_FirstMatch _ _ _ _ Ha).
    apply FirstMatch_In in Ha. apply hasOwn_true in Ha. now rewrite Ha.
  - rewrite findActualKey_NoMatch by assumption.
    rewrite (eqb_of_neq k "__proto__") by assumption. apply orb_true_r.
Qed.

Lemma writable_actual_match (o : object) (k a : string) :
  FirstMatch form (keys o) k a ->
  writable o (findActualKey form k (keys o) k) = true.
Proof.
  intros Ha. unfold writable. rewrite (findActualKey_FirstMatch _ _ _ _ Ha).
  apply FirstMatch_In in Ha. apply hasOwn_true in Ha. now rewrite Ha.
Qed.

Lemma writable_actual_proto (o : object) :
  NoMatch form (keys o) "__proto__" ->
  writable o (findActualKey form "__proto__" (keys o) "__proto__") = false.
Proof.
  intros Hn. unfold writable. rewrite findActualKey_NoMatch by assumption.
  apply NoMatch_not_In, hasOwn_false in Hn. now rewrite Hn.
Qed.

Lemma keys_set_actual (o : object) (k : string) (v : value) :
  keys (setProp o (findActualKey form k (keys o) k) v) = keys o \/
  (NoMatch form (keys o) k /\
   exists pre post,
     keys o = pre ++ post /\
     keys (setProp o (findActualKey form k (keys o) k) v) = pre ++ k :: post).
Proof.
  destruct (keys_setProp o (findActualKey form k (keys o) k) v)
    as [E | (N & _ & pre & post & Eo & E)]; [now left | right].
  destruct (actual_absent_NoMatch o k k N) as (Hn & Ea).
  split; [assumption |]. exists pre, post. now rewrite <- Ea at 3.
Qed.

Lemma distinctKeys_set_actual (o : object) (k : string) (v : value) :
  distinctKeys form o ->
  distinctKeys form (setProp o (findActualKey form k (keys o) k) v).
Proof.
  intros ND. unfold distinctKeys in *.
  destruct (keys_set_actual o k v) as [-> | (Hn & pre & post & Eo & ->)];
    [assumption |].
  rewrite Eo in ND, Hn. rewrite map_app in *. simpl.
  apply NoDup_insert; [assumption |].
  rewrite <- map_app. intros Hx.
  apply in_map_iff in Hx. destruct Hx as (y & Hy & Hin).
  unfold NoMatch in Hn. rewrite Forall_forall in Hn.
  now apply (Hn y Hin).
Qed.

(** *** Deleting the key the scan selects *)

Lemma lookupBy_delete_other (o : object) (a k' : string) :
  form a <> form k' ->
  lookupBy form (deleteProp o a) k' = lookupBy form o k'.
Proof.
  intros Ha. unfold deleteProp.
  induction o as [| [k0 v0] o IH]; simpl; [reflexivity |].
  case_eqb k0 a; simpl.
  - subst. rewrite eqb_of_neq by assumption. assumption.
  - now rewrite IH.
Qed.

Lemma lookupBy_delete_actual (o : object) (k d : string) :
  distinctKeys form o -> form d = form k ->
  lookupBy form (deleteProp o (findActualKey form k (keys o) d)) k = None.
Proof.
  intros ND Hd. induction o as [| [k0 v0] o IH]; simpl; [reflexivity |].
  case_eqb (form k) (form k0).
  - rewrite String.eqb_refl. simpl.
    apply lookupBy_NoMatch, NoMatch_filter.
    eapply distinctKeys_NoMatch; eauto.
  - assert (Hk0 : k0 <> findActualKey form k (keys o) d).
    { intros ->. apply E. symmetry. now apply findActualKey_form. }
    rewrite (eqb_of_neq _ _ Hk0). simpl.
    rewrite eqb_of_neq by congruence.
    apply IH. unfold distinctKeys in *. simpl in ND. now inversion ND.
Qed.

(** *** One overlay entry *)

Lemma lookupBy_mergeEntry_str (env : object) (k k' s : string) :
  lookupBy form (mergeEntry form env (k, VStr s)) k' =
  if String.eqb (form k') (form k) &&
     writable env (findActualKey form k (keys env) k)
  then Some (VStr s) else lookupBy form env k'.
Proof. unfold mergeEntry. simpl. now apply lookupBy_set_actual. Qed.

Lemma lookupBy_mergeEntry_other (env : object) (e : string * value) (k' : string) :
  form (fst e) <> form k' ->
  lookupBy form (mergeEntry form env e) k' = lookupBy form env k'.
Proof.
  intros H. destruct e as [k [s | |]]; unfold mergeEntry; simpl in *.
  - rewrite lookupBy_set_actual by reflexivity.
    now rewrite (eqb_of_neq (form k') (form k)) by congruence.
  - apply lookupBy_delete_other.
    now rewrite findActualKey_form.
  - reflexivity.
Qed.

Lemma lookupBy_mergeEntry_null (env : object) (k : string) :
  distinctKeys form env ->
  lookupBy form (mergeEntry form env (k, VNull)) k = None.
Proof. intros ND. unfold mergeEntry. simpl. now apply lookupBy_delete_actual. Qed.

Lemma distinctKeys_mergeEntry (env : object) (e : string * value) :
  distinctKeys form env -> distinctKeys form (mergeEntry form env e).
Proof.
  intros ND. destruct e as [k [s | |]]; unfold mergeEntry; simpl.
  - now apply distinctKeys_set_actual.
  - now apply distinctKeys_filter.
  - assumption.
Qed.

Lemma allStrings_mergeEntry (env : object) (e : string * value) :
  allStrings env -> allStrings (mergeEntry form env e).
Proof.
  intros H. destruct e as [k [s | |]]; unfold mergeEntry; simpl.
  - now apply allStrings_setProp.
  - now apply allStrings_deleteProp.
  - assumption.
Qed.

(** *** A whole overlay *)

Lemma merge_distinctKeys (other env : object) :
  distinctKeys form env ->
  distinctKeys form (fold_left (mergeEntry form) other env).
Proof.
  revert env. induction other as [| e other IH]; simpl; intros env ND.
  - assumption.
  - apply IH. now apply distinctKeys_mergeEntry.
Qed.

Lemma merge_allStrings (other env : object) :
  allStrings env -> allStrings (fold_left (mergeEntry form) other env).
Proof.
  revert env. induction other as [| e other IH]; simpl; intros env H.
  - assumption.
  - apply IH. now apply allStrings_mergeEntry.
Qed.

Lemma merge_silent (other env : object) (k : string) :
  silentOn form other k ->
  lookupBy form (fold_left (mergeEntry form) other env) k = lookupBy form env k.
Proof.
  unfold silentOn. revert env.
  induction other as [| e other IH]; simpl; intros env H; [reflexivity |].
  inversion H as [| ? ? He Hrest]; subst.
  rewrite IH by assumption.
  case_eqb (form (fst e)) (form k).
  - destruct e as [k0 v0]. simpl in *. rewrite (He E). reflexivity.
  - now apply lookupBy_mergeEntry_other.
Qed.

Lemma distinct_tail_silent (k0 : string) (v0 : value) (other : object) (k : string) :
  distinctKeys form ((k0, v0) :: other) -> form k0 = form k ->
  silentOn form other k.
Proof.
  intros ND E. pose proof (distinctKeys_NoMatch _ _ _ _ ND E) as Hn.
  unfold silentOn, NoMatch in *. rewrite Forall_forall in *.
  intros e He Hf. exfalso. apply (Hn (fst e)); [now apply in_map | assumption].
Qed.

Lemma merge_string (other env : object) (k s : string) :
  distinctKeys form other -> In (k, VStr s) other -> k <> "__proto__" ->
  lookupBy form (fold_left (mergeEntry form) other env) k = Some (VStr s).
Proof.
  intros ND Hin P. revert env ND Hin.
  induction other as [| [k0 v0] other IH]; simpl; intros env ND Hin.
  - contradiction.
  - destruct Hin as [H | H].
    + inversion H; subst.
      rewrite merge_silent by (eapply distinct_tail_silent; eauto).
      now rewrite lookupBy_mergeEntry_str, String.eqb_refl, writable_actual.
    + apply IH; [| assumption].
      unfold distinctKeys in *. simpl in ND. now inversion ND.
Qed.

Lemma merge_null (other env : object) (k : string) :
  distinctKeys form other -> distinctKeys form env -> In (k, VNull) other ->
  lookupBy form (fold_left (mergeEntry form) other env) k = None.
Proof.
  revert env. induction other as [| [k0 v0] other IH]; simpl; intros env ND NDe Hin.
  - contradiction.
  - destruct Hin as [H | H].
    + inversion H; subst.
      rewrite merge_silent by (eapply distinct_tail_silent; eauto).
      now apply lookupBy_mergeEntry_null.
    + apply IH; [| now apply distinctKeys_mergeEntry | assumption].
      unfold distinctKeys in *. simpl in ND. now inversion ND.
Qed.

End FormFacts.

(** ** mergeEnvironments as a sequence of entries *)

Lemma fold_left_ext {A B : Type} (f g : A -> B -> A) (l : list B) (a : A) :
  (forall x y, f x y = g x y) -> fold_left f l a = fold_left g l a.
Proof.
  intros H. revert a. induction l as [| y l IH]; simpl; intros a; [reflexivity |].
  now rewrite H, IH.
Qed.

Lemma fold_left_map {A B C : Type} (f : A -> C -> A) (h : B -> C) (l : list B) (a : A) :
  fold_left f (map h l) a = fold_left (fun x y => f x (h y)) l a.
Proof.
  revert a. induction l as [| y l IH]; simpl; intros a; [reflexivity | apply IH].
Qed.

Lemma fold_left_In_ext {A B : Type} (f g : A -> B -> A) (l : list B) (a : A) :
  (forall x y, In y l -> f x y = g x y) -> fold_left f l a = fold_left g l a.
Proof.
  revert a. induction l as [| y l IH]; simpl; intros a H; [reflexivity |].
  rewrite H by now left. apply IH. intros x z Hz. apply H. now right.
Qed.

Section MergeFacts.

Variable toLowerCase : string -> string.
Variable isWindows : bool.

Let form := keyForm toLowerCase isWindows.

Lemma findActualKey_exact (k : string) (ks : list string) :
  findActualKey (fun x => x) k ks k = k.
Proof.
  induction ks as [| x ks IH]; simpl; [reflexivity |].
  case_eqb k x; [now subst | assumption].
Qed.

(** Each key of the overlay, in order, acts as the entry made of the key and
    the value read under it. *)
Lemma mergeEnvironments_keys (parent other : object) :
  mergeEnvironments toLowerCase isWindows parent (Some other) =
  fold_left (mergeEntry form)
    (map (fun key => (key, prop other key)) (keys other)) parent.
Proof.
  rewrite fold_left_map. unfold mergeEnvironments, form, keyForm.
  destruct isWindows.
  - apply fold_left_ext. intros env key. unfold mergeEntry. simpl.
    now destruct (prop other key).
  - apply fold_left_ext. intros env key. unfold mergeEntry. simpl.
    rewrite findActualKey_exact. now destruct (prop other key).
Qed.

Lemma entries_of_keys (other : object) :
  wellFormed other ->
  map (fun key => (key, prop other key)) (keys other) = other.
Proof.
  intros W. unfold keys. rewrite map_map.
  rewrite <- (map_id other) at 2. apply map_ext_in.
  intros e He. rewrite (prop_entry other e W He). now destruct e.
Qed.

Lemma mergeEnvironments_entries (parent other : object) :
  wellFormed other ->
  mergeEnvironments toLowerCase isWindows parent (Some other) =
  fold_left (mergeEntry form) other parent.
Proof.
  intros W. now rewrite mergeEnvironments_keys, entries_of_keys.
Qed.

Lemma mergeEnvironments_allStrings (parent : object) (other : option object) :
  allStrings parent ->
  allStrings (mergeEnvironments toLowerCase isWindows parent other).
Proof.
  intros H. destruct other as [other |]; [| assumption].
  rewrite mergeEnvironments_keys. now apply merge_allStrings.
Qed.

Lemma mergeEnvironments_distinctKeys (parent : object) (other : option object) :
  distinctKeys form parent ->
  distinctKeys form (mergeEnvironments toLowerCase isWindows parent other).
Proof.
  intros H. destruct other as [other |]; [| assumption].
  rewrite mergeEnvironments_keys. now apply merge_distinctKeys.
Qed.

End MergeFacts.

Lemma distinctKeys_wellFormed (form : string -> string) (o : object) :
  distinctKeys form o -> wellFormed o.
Proof.
  unfold distinctKeys, wellFormed. apply NoDup_map_inv.
Qed.

(** ** mergeNonNullKeys *)

Lemma getOwn_mergeNonNull_fold (other : object) (ks : list string) (acc : object)
    (k : string) :
  getOwn
    (fold_left
       (fun env key =>
          match prop other key with
          | VStr s => setProp env key (VStr s)
          | _ => env
          end) ks acc) k =
  if existsb (String.eqb k) ks && isStr (prop other k) && writable acc k
  then Some (prop other k) else getOwn acc k.
Proof.
  revert acc. induction ks as [| x ks IH]; simpl; intros acc; [reflexivity |].
  rewrite IH. case_eqb k x; simpl.
  - subst x. destruct (prop other k) as [s | |]; simpl.
    + rewrite writable_setProp, getOwn_setProp, String.eqb_refl. simpl.
      rewrite andb_true_r.
      now destruct (existsb (String.eqb k) ks), (writable acc k).
    + now rewrite andb_false_r.
    + now rewrite andb_false_r.
  - assert (E' : String.eqb x k = false) by (apply eqb_of_neq; congruence).
    destruct (prop other x); try reflexivity.
    now rewrite writable_setProp, getOwn_setProp, E'.
Qed.

Lemma existsb_keys (o : object) (k : string) :
  existsb (String.eqb k) (keys o) = false -> getOwn o k = None.
Proof.
  induction o as [| [k' v] o IH]; simpl; [reflexivity |].
  rewrite String.eqb_sym. destruct (String.eqb k' k); simpl; [discriminate | assumption].
Qed.

(** What a key reads as after [mergeNonNullKeys]: the string of the overlay
    where the assignment takes effect, what it read as before otherwise. *)
Lemma getOwn_mergeNonNullKeys_any (env o : object) (k : string) :
  getOwn (mergeNonNullKeys env (Some o)) k =
  match getOwn o k with
  | Some (VStr s) => if writable env k then Some (VStr s) else getOwn env k
  | _ => getOwn env k
  end.
Proof.
  unfold mergeNonNullKeys. rewrite getOwn_mergeNonNull_fold.
  destruct (existsb (String.eqb k) (keys o)) eqn:E; simpl.
  - unfold prop. destruct (getOwn o k) as [[s | |] |]; reflexivity.
  - rewrite (existsb_keys o k E). reflexivity.
Qed.

Lemma getOwn_mergeNonNullKeys (other : option object) (k : string) :
  getOwn (mergeNonNullKeys [] other) k =
  match other with
  | Some o =>
      match getOwn o k with
      | Some (VStr s) =>
          if String.eqb k "__proto__" then None else Some (VStr s)
      | _ => None
      end
  | None => None
  end.
Proof.
  destruct other as [o |]; [| reflexivity].
  rewrite getOwn_mergeNonNullKeys_any. unfold writable. simpl.
  destruct (getOwn o k) as [[s | |] |]; try reflexivity.
  now destruct (String.eqb k "__proto__").
Qed.

Lemma mergeNonNullKeys_wellFormed (env : object) (other : option object) :
  wellFormed env -> wellFormed (mergeNonNullKeys env other).
Proof.
  destruct other as [o |]; [| auto].
  unfold mergeNonNullKeys. generalize (keys o) as ks. intros ks. revert env.
  induction ks as [| x ks IH]; simpl; intros env W; [assumption |].
  apply IH. destruct (prop o x); auto using wellFormed_setProp.
Qed.

Lemma mergeNonNullKeys_allStrings (env : object) (other : option object) :
  allStrings env -> allStrings (mergeNonNullKeys env other).
Proof.
  destruct other as [o |]; [| auto].
  unfold mergeNonNullKeys. generalize (keys o) as ks. intros ks. revert env.
  induction ks as [| x ks IH]; simpl; intros env W; [assumption |].
  apply IH. destruct (prop o x); auto using allStrings_setProp.
Qed.

Lemma Permutation_insert_app {A : Type} (pre post l : list A) (x : A) :
  Permutation ((pre ++ post) ++ x :: l) ((pre ++ x :: post) ++ l).
Proof.
  rewrite <- !app_assoc. apply Permutation_app_head. simpl.
  symmetry. apply Permutation_middle.
Qed.

(** The copy of an object without keys of the same form has none either. *)
Lemma mergeNonNull_distinct (form : string -> string) (other : object)
    (ks : list string) (acc : object) :
  NoDup (map form (keys acc ++ ks)) ->
  distinctKeys form
    (fold_left
       (fun env key =>
          match prop other key with
          | VStr s => setProp env key (VStr s)
          | _ => env
          end) ks acc).
Proof.
  unfold distinctKeys. revert acc.
  induction ks as [| x ks IH]; simpl; intros acc ND.
  - now rewrite app_nil_r in ND.
  - assert (ND' : NoDup (map form (keys acc ++ ks))).
    { rewrite map_app in *. simpl in ND. now apply NoDup_remove_1 in ND. }
    apply IH. destruct (prop other x) as [s | |]; try assumption.
    destruct (keys_setProp acc x (VStr s))
      as [-> | (_ & _ & pre & post & Eo & ->)]; [assumption |].
    rewrite Eo in ND.
    apply (Permutation_NoDup
             (Permutation_map form (Permutation_insert_app pre post ks x))).
    exact ND.
Qed.

Lemma mergeNonNullKeys_distinctKeys (form : string -> string) (o : object) :
  distinctKeys form o -> distinctKeys form (mergeNonNullKeys [] (Some o)).
Proof.
  intros ND. unfold mergeNonNullKeys. now apply mergeNonNull_distinct.
Qed.

(** ** The strict build *)

(** C1. When [strictEnv] is true, [createTerminalEnvironment] returns the
    entries of [launchConfig.env] whose values are strings, but for the key
    [__proto__]: whatever the base environment, the configured overlay, the
    resolver, the version, the locale mode, the platform and the sanitizer
    are, every key other than [__proto__] reads in the result as it reads in
    [launchConfig.env] when that value is a string, and is absent otherwise
    (entries valued [null] or [undefined] are dropped, nothing of the base
    environment is kept, no marker key is added); the key [__proto__] is
    absent from the result whatever [launchConfig.env] holds under it, since
    the copy assigns into a plain object, where that key is an inherited
    accessor. *)
Theorem C1_strict_returns_string_entries
    (toLowerCase toUpperCase : string -> string) (isWindows : bool)
    (language : option string)
    (sanitize : IProcessEnvironment -> list string -> IProcessEnvironment)
    (shellLaunchConfig : IShellLaunchConfig)
    (envFromConfig : option ITerminalEnvironment)
    (variableResolver : option VariableResolver)
    (version : option string) (detectLocale : DetectLocale)
    (baseEnv : IProcessEnvironment) :
  ShellLaunchConfig.strictEnv shellLaunchConfig = true ->
  let result :=
    createTerminalEnvironment toLowerCase toUpperCase isWindows language sanitize
      shellLaunchConfig envFromConfig variableResolver version detectLocale baseEnv in
  wellFormed result /\
  allStrings result /\
  (forall k,
     k <> "__proto__" ->
     getOwn result k =
     match ShellLaunchConfig.env shellLaunchConfig with
     | Some requested =>
         match getOwn requested k with
         | Some (VStr s) => Some (VStr s)
         | _ => None
         end
     | None => None
     end) /\
  getOwn result "__proto__" = None.
Proof.
  intros Hs result. subst result. unfold createTerminalEnvironment. rewrite Hs.
  split; [| split; [| split]].
  - apply mergeNonNullKeys_wellFormed. constructor.
  - apply mergeNonNullKeys_allStrings. constructor.
  - intros k P. rewrite getOwn_mergeNonNullKeys.
    now rewrite (eqb_of_neq k "__proto__") by assumption.
  - rewrite getOwn_mergeNonNullKeys.
    destruct (ShellLaunchConfig.env shellLaunchConfig) as [o |]; [| reflexivity].
    now destruct (getOwn o "__proto__") as [[s | |] |].
Qed.

Lemma C1_strict_returns_string_entries_witness :
  ShellLaunchConfig.strictEnv
    (mkLaunch (Some [("__proto__", VStr "x"); ("A", VStr "1"); ("B", VNull)])
       true) = true /\
  let result :=
    createTerminalEnvironment asciiLower asciiUpper false (Some "en")
      sanitizeProcessEnvironmentSpec
      (mkLaunch (Some [("__proto__", VStr "x"); ("A", VStr "1"); ("B", VNull)])
         true)
      (Some [("C", VStr "c")]) None (Some "1.0") On [("D", VStr "d")] in
  getOwn result "A" = Some (VStr "1") /\
  getOwn result "B" = None /\
  getOwn result "__proto__" = None.
Proof.
  split; [reflexivity |].
  destruct (C1_strict_returns_string_entries asciiLower asciiUpper false
              (Some "en") sanitizeProcessEnvironmentSpec
              (mkLaunch
                 (Some [("__proto__", VStr "x"); ("A", VStr "1"); ("B", VNull)])
                 true)
              (Some [("C", VStr "c")]) None (Some "1.0") On [("D", VStr "d")]
              eq_refl)
    as (_ & _ & Hk & Hp).
  split; [| split].
  - apply (Hk "A"). discriminate.
  - apply (Hk "B"). discriminate.
  - exact Hp.
Defined.

(** The strict copy of [{__proto__: "x", A: "1"}], an object with an own
    property [__proto__] as [JSON.parse] builds it, is [{A: "1"}]: the string
    entry under [__proto__] is not returned. *)
Example strict_proto_example :
  getOwn [("__proto__", VStr "x"); ("A", VStr "1")] "__proto__" =
    Some (VStr "x") /\
  createTerminalEnvironment asciiLower asciiUpper false (Some "en")
    sanitizeProcessEnvironmentSpec
    (mkLaunch (Some [("__proto__", VStr "x"); ("A", VStr "1")]) true)
    None None None On [] =
  [("A", VStr "1")].
Proof. split; reflexivity. Qed.

(** The example of the specification: the overlay [{A: "1", B: null}] gives
    exactly [{A: "1"}]. *)
Example strict_example :
  createTerminalEnvironment asciiLower asciiUpper false (Some "en")
    sanitizeProcessEnvironmentSpec
    (mkLaunch (Some [("A", VStr "1"); ("B", VNull)]) true)
    (Some [("C", VStr "c")]) None (Some "1.0") On [("D", VStr "d")] =
  [("A", VStr "1")].
Proof. reflexivity. Qed.

(** ** The merge, entry by entry *)

Lemma FirstMatch_exact (ks : list string) (k a : string) :
  FirstMatch (fun x => x) ks k a <-> a = k /\ In k ks.
Proof.
  split.
  - intros H. pose proof (FirstMatch_In _ _ _ _ H) as Hin.
    destruct H as (pre & post & _ & Ha & _). subst. tauto.
  - intros [-> Hin].
    destruct (match_or_not (fun x => x) ks k) as [(a & Ha) | Hn].
    + destruct Ha as (pre & post & E & Ha & Hpre). subst a.
      exists pre, post. auto.
    + exfalso. now apply (NoMatch_not_In _ _ _ Hn).
Qed.

Lemma NoMatch_exact (ks : list string) (k : string) :
  NoMatch (fun x => x) ks k <-> ~ In k ks.
Proof.
  unfold NoMatch. rewrite Forall_forall. split.
  - intros H Hin. now apply (H k).
  - intros H x Hx ->. contradiction.
Qed.

(** C2. [mergeEnvironments] applies the entries of the overlay to the base
    one after the other.  An entry valued [undefined] changes nothing; an
    entry valued [null] deletes the key when present; an entry with a string
    value assigns it.  The key acted on is the first key of the base that has
    the form of the overlay key (its lowercase on Windows, the key itself
    elsewhere): the base key keeps its casing and its place, and no second key
    is added.  With no such key, an overlay key other than [__proto__] is
    inserted as it is (last, unless it is an array index), while the string
    of an overlay key [__proto__] is dropped and the base is left as it was:
    the assignment reaches the accessor that a plain object inherits.  Off
    Windows the form is the key, so the match is exact equality. *)
Theorem C2_mergeEnvironments_entrywise
    (toLowerCase : string -> string) (isWindows : bool)
    (parent : IProcessEnvironment) :
  let form := keyForm toLowerCase isWindows in
  let merge := mergeEnvironments toLowerCase isWindows in
  merge parent None = parent /\
  (forall other, wellFormed other ->
     merge parent (Some other) =
     fold_left (fun env e => merge env (Some [e])) other parent) /\
  (forall k, merge parent (Some [(k, VUndefined)]) = parent) /\
  (forall k s a, FirstMatch form (keys parent) k a ->
     merge parent (Some [(k, VStr s)]) = update parent a (VStr s) /\
     keys (merge parent (Some [(k, VStr s)])) = keys parent /\
     getOwn (merge parent (Some [(k, VStr s)])) a = Some (VStr s)) /\
  (forall k s, NoMatch form (keys parent) k -> k <> "__proto__" ->
     (exists pre post,
        parent = pre ++ post /\
        merge parent (Some [(k, VStr s)]) = pre ++ (k, VStr s) :: post) /\
     (arrayIndex k = None ->
      merge parent (Some [(k, VStr s)]) = parent ++ [(k, VStr s)])) /\
  (forall s, NoMatch form (keys parent) "__proto__" ->
     merge parent (Some [("__proto__", VStr s)]) = parent) /\
  (forall k a, FirstMatch form (keys parent) k a ->
     merge parent (Some [(k, VNull)]) = deleteProp parent a /\
     getOwn (merge parent (Some [(k, VNull)])) a = None) /\
  (forall k, NoMatch form (keys parent) k ->
     merge parent (Some [(k, VNull)]) = parent) /\
  (isWindows = false ->
   forall k a,
     (FirstMatch form (keys parent) k a <-> a = k /\ In k (keys parent)) /\
     (NoMatch form (keys parent) k <-> ~ In k (keys parent))).
Proof.
  intros form merge.
  assert (one : forall env e, merge env (Some [e]) = mergeEntry form env e).
  { intros env [k v]. unfold merge. rewrite mergeEnvironments_keys. simpl.
    unfold prop. simpl. now rewrite String.eqb_refl. }
  split; [reflexivity |].
  split.
  { intros other W. unfold merge at 1.
    rewrite mergeEnvironments_entries by assumption.
    apply fold_left_ext. intros env e. symmetry. apply one. }
  split.
  { intros k. now rewrite one. }
  split.
  { intros k s a Ha. rewrite one. unfold mergeEntry. simpl.
    rewrite (findActualKey_FirstMatch _ _ _ _ _ Ha).
    pose proof (FirstMatch_In _ _ _ _ Ha) as Hin.
    rewrite setProp_own by assumption.
    split; [reflexivity |]. split.
    - apply keys_update.
    - now rewrite getOwn_update, String.eqb_refl. }
  split.
  { intros k s Hn P. rewrite one. unfold mergeEntry. simpl.
    rewrite findActualKey_NoMatch by assumption.
    pose proof (NoMatch_not_In _ _ _ Hn) as Hk.
    split.
    - destruct (setProp_cases parent k (VStr s))
        as [(I & _) | [(_ & P' & _) | (_ & _ & H)]];
        [contradiction | contradiction | exact H].
    - intros A. now apply setProp_fresh. }
  split.
  { intros s Hn. rewrite one. unfold mergeEntry. simpl.
    rewrite findActualKey_NoMatch by assumption.
    apply setProp_proto. eapply NoMatch_not_In; eauto. }
  split.
  { intros k a Ha. rewrite one. unfold mergeEntry. simpl.
    rewrite (findActualKey_FirstMatch _ _ _ _ _ Ha).
    split; [reflexivity |].
    now rewrite getOwn_deleteProp, String.eqb_refl. }
  split.
  { intros k Hn. rewrite one. unfold mergeEntry. simpl.
    rewrite findActualKey_NoMatch by assumption.
    apply deleteProp_absent. eapply NoMatch_not_In; eauto. }
  intros Hw k a. unfold form, keyForm. rewrite Hw.
  split; [apply FirstMatch_exact | apply NoMatch_exact].
Qed.

(** The example of the specification: on Windows, merging [{Path: "x"}] into
    [{PATH: "y"}] gives [{PATH: "x"}]. *)
Lemma C2_mergeEnvironments_entrywise_witness :
  FirstMatch (keyForm asciiLower true) (keys [("PATH", VStr "y")]) "Path" "PATH" /\
  mergeEnvironments asciiLower true [("PATH", VStr "y")] (Some [("Path", VStr "x")]) =
  [("PATH", VStr "x")].
Proof.
  assert (H : FirstMatch (keyForm asciiLower true) (keys [("PATH", VStr "y")])
                "Path" "PATH").
  { exists [], []. repeat split; constructor. }
  split; [exact H |].
  destruct (C2_mergeEnvironments_entrywise asciiLower true [("PATH", VStr "y")])
    as (_ & _ & _ & Hstr & _).
  destruct (Hstr "Path" "x" "PATH" H) as (-> & _).
  reflexivity.
Defined.

(** Merging [{__proto__: "x"}], an object with an own property [__proto__],
    into [{A: "1"}] leaves [{A: "1"}]: the string is not assigned.  Merging
    [{"7": "x"}] puts the array index before the key [A]. *)
Example merge_proto_example :
  mergeEnvironments asciiLower false [("A", VStr "1")]
    (Some [("__proto__", VStr "x")]) = [("A", VStr "1")] /\
  mergeEnvironments asciiLower true [("A", VStr "1")]
    (Some [("__proto__", VStr "x")]) = [("A", VStr "1")] /\
  mergeEnvironments asciiLower false [("A", VStr "1")]
    (Some [("7", VStr "x")]) = [("7", VStr "x"); ("A", VStr "1")].
Proof. repeat split; reflexivity. Qed.

(** ** resolveConfigurationVariables *)

Lemma setProp_middle (a b : object) (k : string) (v0 v : value) :
  ~ In k (keys a) -> setProp (a ++ (k, v0) :: b) k v = a ++ (k, v) :: b.
Proof.
  intros H. rewrite setProp_own.
  - now apply update_middle.
  - rewrite keys_app. apply in_or_app. right. now left.
Qed.

Lemma resolve_fold (r : VariableResolver) (l pre : object) :
  NoDup (keys pre ++ keys l) ->
  fold_left
    (fun env' entry =>
       match snd entry with
       | VStr value =>
           match r value with
           | Some resolved => setProp env' (fst entry) (VStr resolved)
           | None => setProp env' (fst entry) (VStr value)
           end
       | _ => env'
       end)
    l (map (fun e => (fst e, resolveValue r (snd e))) pre ++ l) =
  map (fun e => (fst e, resolveValue r (snd e))) (pre ++ l).
Proof.
  revert pre. induction l as [| [k v] l IH]; intros pre ND.
  - simpl. now rewrite !app_nil_r.
  - assert (Hk : ~ In k (keys (map (fun e => (fst e, resolveValue r (snd e))) pre))).
    { unfold keys. rewrite map_map. simpl.
      apply NoDup_remove_2 in ND. intros H. apply ND.
      apply in_or_app. now left. }
    assert (ND' : NoDup (keys (pre ++ [(k, v)]) ++ keys l)).
    { rewrite keys_app, <- app_assoc. exact ND. }
    specialize (IH (pre ++ [(k, v)]) ND').
    rewrite map_app in IH. simpl in IH. rewrite <- !app_assoc in IH. simpl in IH.
    cbn [fold_left snd fst].
    destruct v as [s | |]; simpl in *.
    + destruct (r s) as [s' |]; rewrite setProp_middle by exact Hk; exact IH.
    + exact IH.
    + exact IH.
Qed.

Lemma resolveConfigurationVariables_map (r : VariableResolver) (env : object) :
  wellFormed env ->
  resolveConfigurationVariables r env =
  map (fun e => (fst e, resolveValue r (snd e))) env.
Proof.
  intros W. unfold resolveConfigurationVariables.
  exact (resolve_fold r env [] W).
Qed.

(** ** addTerminalEnvironmentKeys *)

Lemma lookupBy_setProp_other (form : string -> string) (o : object)
    (m k : string) (v : value) :
  form m <> form k ->
  lookupBy form (setProp o m v) k = lookupBy form o k.
Proof.
  intros H.
  destruct (setProp_cases o m v)
    as [(I & E) | [(N & P & E) | (N & P & pre & post & Eo & E)]]; rewrite E.
  - clear E I. induction o as [| [k0 v0] o IH]; simpl; [reflexivity |].
    case_eqb k0 m; simpl.
    + subst. now rewrite eqb_of_neq.
    + now rewrite IH.
  - reflexivity.
  - subst o. clear E N. induction pre as [| [k0 v0] pre IH]; simpl.
    + now rewrite eqb_of_neq.
    + now rewrite IH.
Qed.

Lemma addTerminalEnvironmentKeys_lookup (form toUpperCase : string -> string)
    (env : object) (version locale : option string) (detectLocale : DetectLocale)
    (k : string) :
  notMarker form k ->
  lookupBy form (addTerminalEnvironmentKeys toUpperCase env version locale detectLocale) k =
  lookupBy form env k.
Proof.
  unfold notMarker, markerKeys. intros H.
  inversion H as [| ? ? H1 H']; subst.
  inversion H' as [| ? ? H2 H'']; subst.
  inversion H'' as [| ? ? H3 H''']; subst.
  inversion H''' as [| ? ? H4 _]; subst.
  unfold addTerminalEnvironmentKeys.
  rewrite lookupBy_setProp_other by assumption.
  match goal with
  | |- lookupBy _ (if ?c then _ else _) _ = _ => destruct c
  end;
  [rewrite lookupBy_setProp_other by assumption |];
  (destruct version as [v |];
   [destruct (truthy (Some v)); [rewrite lookupBy_setProp_other by assumption |] |];
   now rewrite lookupBy_setProp_other by assumption).
Qed.

Lemma addTerminalEnvironmentKeys_allStrings (toUpperCase : string -> string)
    (env : object) (version locale : option string) (detectLocale : DetectLocale) :
  allStrings env ->
  allStrings (addTerminalEnvironmentKeys toUpperCase env version locale detectLocale).
Proof.
  intros H. unfold addTerminalEnvironmentKeys.
  apply allStrings_setProp.
  match goal with
  | |- allStrings (if ?c then _ else _) => destruct c
  end;
  [apply allStrings_setProp |];
  (destruct version as [v |];
   [destruct (truthy (Some v)); [apply allStrings_setProp |] |];
   now apply allStrings_setProp).
Qed.

(** ** Exact keys *)

Lemma lookupBy_exact (o : object) (k : string) :
  lookupBy (fun x => x) o k = getOwn o k.
Proof.
  induction o as [| [k0 v0] o IH]; simpl; [reflexivity | now rewrite IH].
Qed.

(** Off Windows the case-aware reading of a key is the plain one. *)
Lemma lookupBy_offWindows (toLowerCase : string -> string) (o : object)
    (k : string) :
  lookupBy (keyForm toLowerCase false) o k = getOwn o k.
Proof. exact (lookupBy_exact o k). Qed.




(** ** The overlays as the build merges them *)

Lemma resolvedEntries_keys (vr : option VariableResolver) (o : object) :
  keys (resolvedEntries vr o) = keys o.
Proof. unfold resolvedEntries, keys. now rewrite map_map. Qed.

Lemma resolvedEntries_distinctKeys (form : string -> string)
    (vr : option VariableResolver) (o : object) :
  distinctKeys form o -> distinctKeys form (resolvedEntries vr o).
Proof. unfold distinctKeys. now rewrite resolvedEntries_keys. Qed.

Lemma resolvedEntries_In (vr : option VariableResolver) (o : object)
    (k : string) (v : value) :
  In (k, v) o -> In (k, resolved vr v) (resolvedEntries vr o).
Proof.
  intros H. unfold resolvedEntries.
  change (k, resolved vr v) with ((fun e => (fst e, resolved vr (snd e))) (k, v)).
  now apply in_map.
Qed.

Lemma resolved_undefined (vr : option VariableResolver) :
  resolved vr VUndefined = VUndefined.
Proof. now destruct vr. Qed.

Lemma resolved_null (vr : option VariableResolver) : resolved vr VNull = VNull.
Proof. now destruct vr. Qed.

Lemma resolved_string (vr : option VariableResolver) (s : string) :
  exists s', resolved vr (VStr s) = VStr s'.
Proof.
  destruct vr as [r |]; simpl; [| now exists s].
  destruct (r s) as [s' |]; eauto.
Qed.

Lemma resolvedEntries_silentOn (form : string -> string)
    (vr : option VariableResolver) (o : object) (k : string) :
  silentOn form o k -> silentOn form (resolvedEntries vr o) k.
Proof.
  unfold silentOn, resolvedEntries. rewrite !Forall_forall.
  intros H e He. apply in_map_iff in He. destruct He as ([k0 v0] & <- & He).
  simpl. intros Hf. specialize (H _ He Hf). simpl in H. subst.
  apply resolved_undefined.
Qed.

Lemma resolvedEntries_none (o : object) : resolvedEntries None o = o.
Proof.
  unfold resolvedEntries. simpl.
  induction o as [| [k v] o IH]; simpl; [reflexivity | now rewrite IH].
Qed.

Lemma resolvedLaunchEnv_entries (shellLaunchConfig : IShellLaunchConfig)
    (vr : option VariableResolver) (requested : object) :
  ShellLaunchConfig.env shellLaunchConfig = Some requested ->
  wellFormed requested ->
  resolvedLaunchEnv shellLaunchConfig vr = Some (resolvedEntries vr requested).
Proof.
  intros E W. unfold resolvedLaunchEnv. rewrite E.
  destruct vr as [r |].
  - now rewrite resolveConfigurationVariables_map.
  - now rewrite resolvedEntries_none.
Qed.

Lemma resolvedLaunchEnv_none (shellLaunchConfig : IShellLaunchConfig)
    (vr : option VariableResolver) :
  ShellLaunchConfig.env shellLaunchConfig = None ->
  resolvedLaunchEnv shellLaunchConfig vr = None.
Proof. intros E. unfold resolvedLaunchEnv. rewrite E. now destruct vr. Qed.

Lemma resolvedConfigEnv_entries (envFromConfig : option object)
    (vr : option VariableResolver) :
  wellFormed (spread envFromConfig) ->
  resolvedConfigEnv envFromConfig vr = resolvedEntries vr (spread envFromConfig).
Proof.
  intros W. unfold resolvedConfigEnv.
  fold (spread envFromConfig).
  destruct vr as [r |].
  - now rewrite resolveConfigurationVariables_map.
  - now rewrite resolvedEntries_none.
Qed.

(** ** The build without [strictEnv] *)

Section CreateFacts.

Variable toLowerCase toUpperCase : string -> string.
Variable isWindows : bool.
Variable language : option string.
Variable sanitize : IProcessEnvironment -> list string -> IProcessEnvironment.

Let form := keyForm toLowerCase isWindows.
Let merge := mergeEnvironments toLowerCase isWindows.
Let create :=
  createTerminalEnvironment toLowerCase toUpperCase isWindows language sanitize.

Variable shellLaunchConfig : IShellLaunchConfig.
Variable envFromConfig : option ITerminalEnvironment.
Variable variableResolver : option VariableResolver.
Variable version : option string.
Variable detectLocale : DetectLocale.
Variable baseEnv : IProcessEnvironment.

Let result :=
  create shellLaunchConfig envFromConfig variableResolver version detectLocale baseEnv.

(** The environment once the base is copied and sanitized and the
    configured overlay is merged. *)
Let configured :=
  merge (sanitize (mergeNonNullKeys [] (Some baseEnv)) sanitizedNames)
    (Some (resolvedConfigEnv envFromConfig variableResolver)).

Hypothesis notStrict : ShellLaunchConfig.strictEnv shellLaunchConfig = false.

Lemma create_layers :
  result =
  addTerminalEnvironmentKeys toUpperCase
    (merge configured (resolvedLaunchEnv shellLaunchConfig variableResolver))
    version language detectLocale.
Proof.
  unfold result, create, createTerminalEnvironment. now rewrite notStrict.
Qed.

Lemma sanitized_distinctKeys :
  onlyRemoves sanitize -> distinctKeys form baseEnv ->
  distinctKeys form (sanitize (mergeNonNullKeys [] (Some baseEnv)) sanitizedNames).
Proof.
  intros Hs ND.
  destruct (Hs (mergeNonNullKeys [] (Some baseEnv)) sanitizedNames) as (keep & ->).
  apply distinctKeys_filter. now apply mergeNonNullKeys_distinctKeys.
Qed.

Lemma configured_distinctKeys :
  onlyRemoves sanitize -> distinctKeys form baseEnv ->
  distinctKeys form configured.
Proof.
  intros Hs ND. unfold configured, merge.
  apply mergeEnvironments_distinctKeys. now apply sanitized_distinctKeys.
Qed.

Lemma create_launch_string (requested : object) (k s : string) :
  ShellLaunchConfig.env shellLaunchConfig = Some requested ->
  distinctKeys form requested ->
  notMarker form k ->
  k <> "__proto__" ->
  In (k, VStr s) requested ->
  lookupBy form result k = Some (resolved variableResolver (VStr s)).
Proof.
  intros E ND Hm P Hin.
  pose proof (distinctKeys_wellFormed _ _ ND) as W.
  rewrite create_layers, addTerminalEnvironmentKeys_lookup by assumption.
  rewrite (resolvedLaunchEnv_entries _ _ _ E W).
  unfold merge. rewrite mergeEnvironments_entries
    by (unfold wellFormed; now rewrite resolvedEntries_keys).
  destruct (resolved_string variableResolver s) as (s' & Hs').
  rewrite Hs'. apply merge_string.
  - now apply resolvedEntries_distinctKeys.
  - rewrite <- Hs'. now apply resolvedEntries_In.
  - assumption.
Qed.

Lemma create_launch_null (requested : object) (k : string) :
  onlyRemoves sanitize -> distinctKeys form baseEnv ->
  ShellLaunchConfig.env shellLaunchConfig = Some requested ->
  distinctKeys form requested ->
  notMarker form k ->
  In (k, VNull) requested ->
  lookupBy form result k = None.
Proof.
  intros Hs NDb E ND Hm Hin.
  pose proof (distinctKeys_wellFormed _ _ ND) as W.
  rewrite create_layers, addTerminalEnvironmentKeys_lookup by assumption.
  rewrite (resolvedLaunchEnv_entries _ _ _ E W).
  unfold merge. rewrite mergeEnvironments_entries
    by (unfold wellFormed; now rewrite resolvedEntries_keys).
  apply merge_null.
  - now apply resolvedEntries_distinctKeys.
  - now apply configured_distinctKeys.
  - rewrite <- (resolved_null variableResolver). now apply resolvedEntries_In.
Qed.

(** What the launch configuration leaves of the configured environment
    under a key on which it is silent. *)
Lemma create_launch_silent (k : string) :
  (forall requested,
     ShellLaunchConfig.env shellLaunchConfig = Some requested ->
     wellFormed requested /\ silentOn form requested k) ->
  notMarker form k ->
  lookupBy form result k = lookupBy form configured k.
Proof.
  intros Hl Hm.
  rewrite create_layers, addTerminalEnvironmentKeys_lookup by assumption.
  destruct (ShellLaunchConfig.env shellLaunchConfig) as [requested |] eqn:E.
  - destruct (Hl requested eq_refl) as (W & Hsil).
    rewrite (resolvedLaunchEnv_entries _ _ _ E W).
    unfold merge. rewrite mergeEnvironments_entries
      by (unfold wellFormed; now rewrite resolvedEntries_keys).
    apply merge_silent. now apply resolvedEntries_silentOn.
  - now rewrite (resolvedLaunchEnv_none _ _ E).
Qed.


Lemma configured_null (k : string) :
  onlyRemoves sanitize -> distinctKeys form baseEnv ->
  distinctKeys form (spread envFromConfig) ->
  In (k, VNull) (spread envFromConfig) ->
  lookupBy form configured k = None.
Proof.
  intros Hs NDb ND Hin.
  pose proof (distinctKeys_wellFormed _ _ ND) as W.
  unfold configured, merge.
  rewrite resolvedConfigEnv_entries by assumption.
  rewrite mergeEnvironments_entries
    by (unfold wellFormed; now rewrite resolvedEntries_keys).
  apply merge_null.
  - now apply resolvedEntries_distinctKeys.
  - now apply sanitized_distinctKeys.
  - rewrite <- (resolved_null variableResolver). now apply resolvedEntries_In.
Qed.

Lemma create_allStrings_layers :
  onlyRemoves sanitize -> allStrings result.
Proof.
  intros Hs. rewrite create_layers.
  apply addTerminalEnvironmentKeys_allStrings.
  unfold merge, configured, merge.
  do 2 apply mergeEnvironments_allStrings.
  destruct (Hs (mergeNonNullKeys [] (Some baseEnv)) sanitizedNames) as (keep & ->).
  apply allStrings_filter, mergeNonNullKeys_allStrings. constructor.
Qed.


End CreateFacts.

Lemma sanitizeProcessEnvironmentSpec_onlyRemoves :
  onlyRemoves sanitizeProcessEnvironmentSpec.
Proof.
  intros env names.
  exists (fun k => negb (existsb (String.eqb k) names)). reflexivity.
Qed.

Ltac not_in :=
  let H := fresh in
  intro H; simpl in H;
  repeat (destruct H as [H | H]; [discriminate H |]);
  destruct H.

Ltac distinct_keys :=
  unfold distinctKeys, wellFormed; vm_compute;
  repeat (apply NoDup_cons; [not_in |]); apply NoDup_nil.

Ltac not_marker :=
  unfold notMarker, markerKeys; repeat constructor; vm_compute; discriminate.

(** C3 (amended). Without [strictEnv], [launchConfig.env] is merged last and
    wins over the base environment and the configured overlay for every key
    that is not one of the marker keys written afterwards ([TERM_PROGRAM],
    [TERM_PROGRAM_VERSION], [LANG], [COLORTERM]): when no two keys of
    [launchConfig.env] share a form (lowercase on Windows), a key other than
    [__proto__] that it maps to a string reads in the result, case-aware on
    Windows, as that string after variable resolution; and a key it maps to
    [null] is absent from the result, the base environment having no two keys
    of one form and the sanitizer only removing entries.  Nothing is said of
    a string under the key [__proto__], whose assignment the host drops. *)
Theorem C3_launch_env_wins_except_markers
    (toLowerCase toUpperCase : string -> string) (isWindows : bool)
    (language : option string)
    (sanitize : IProcessEnvironment -> list string -> IProcessEnvironment)
    (shellLaunchConfig : IShellLaunchConfig)
    (envFromConfig : option ITerminalEnvironment)
    (variableResolver : option VariableResolver)
    (version : option string) (detectLocale : DetectLocale)
    (baseEnv : IProcessEnvironment)
    (requested : ITerminalEnvironment) (k : string) :
  ShellLaunchConfig.strictEnv shellLaunchConfig = false ->
  ShellLaunchConfig.env shellLaunchConfig = Some requested ->
  distinctKeys (keyForm toLowerCase isWindows) requested ->
  notMarker (keyForm toLowerCase isWindows) k ->
  let result :=
    createTerminalEnvironment toLowerCase toUpperCase isWindows language sanitize
      shellLaunchConfig envFromConfig variableResolver version detectLocale baseEnv in
  (forall s, k <> "__proto__" -> getOwn requested k = Some (VStr s) ->
     lookupBy (keyForm toLowerCase isWindows) result k =
     Some (resolved variableResolver (VStr s))) /\
  (getOwn requested k = Some VNull ->
   onlyRemoves sanitize ->
   distinctKeys (keyForm toLowerCase isWindows) baseEnv ->
   lookupBy (keyForm toLowerCase isWindows) result k = None).
Proof.
  intros Hs E ND Hm result. subst result. split.
  - intros s P Hk. apply getOwn_In in Hk.
    eapply create_launch_string; eauto.
  - intros Hk Hr NDb. apply getOwn_In in Hk.
    eapply create_launch_null; eauto.
Qed.

Lemma C3_launch_env_wins_except_markers_witness :
  lookupBy (keyForm asciiLower true)
    (createTerminalEnvironment asciiLower asciiUpper true (Some "en")
       sanitizeProcessEnvironmentSpec (mkLaunch (Some exRequested) false)
       (Some exConfig) (Some homeResolver) (Some "1.0") Auto exBase) "path" =
  Some (VStr "/home/u") /\
  lookupBy (keyForm asciiLower true)
    (createTerminalEnvironment asciiLower asciiUpper true (Some "en")
       sanitizeProcessEnvironmentSpec (mkLaunch (Some exRequested) false)
       (Some exConfig) (Some homeResolver) (Some "1.0") Auto exBase) "home" =
  None.
Proof.
  assert (ND : distinctKeys (keyForm asciiLower true) exRequested) by distinct_keys.
  split.
  - assert (Hm : notMarker (keyForm asciiLower true) "path") by not_marker.
    destruct (C3_launch_env_wins_except_markers asciiLower asciiUpper true
                (Some "en") sanitizeProcessEnvironmentSpec
                (mkLaunch (Some exRequested) false)
                (Some exConfig) (Some homeResolver) (Some "1.0") Auto exBase
                exRequested "path" eq_refl eq_refl ND Hm) as (Hstr & _).
    refine (Hstr "${home}" _ eq_refl). discriminate.
  - assert (Hm : notMarker (keyForm asciiLower true) "home") by not_marker.
    destruct (C3_launch_env_wins_except_markers asciiLower asciiUpper true
                (Some "en") sanitizeProcessEnvironmentSpec
                (mkLaunch (Some exRequested) false)
                (Some exConfig) (Some homeResolver) (Some "1.0") Auto exBase
                exRequested "home" eq_refl eq_refl ND Hm) as (_ & Hnull).
    assert (NDb : distinctKeys (keyForm asciiLower true) exBase) by distinct_keys.
    exact (Hnull eq_refl sanitizeProcessEnvironmentSpec_onlyRemoves NDb).
Defined.

(** C3 without the exception fails on a marker key: the launch configuration
    maps [TERM_PROGRAM] to a string of its own, and the result holds
    [vscode]. *)
Lemma C3_counterexample :
  getOwn [("TERM_PROGRAM", VStr "mine")] "TERM_PROGRAM" = Some (VStr "mine") /\
  getOwn
    (createTerminalEnvironment asciiLower asciiUpper false (Some "en")
       sanitizeProcessEnvironmentSpec
       (mkLaunch (Some [("TERM_PROGRAM", VStr "mine")]) false)
       None None None Off []) "TERM_PROGRAM" = Some (VStr "vscode") /\
  getOwn
    (createTerminalEnvironment asciiLower asciiUpper false (Some "en")
       sanitizeProcessEnvironmentSpec
       (mkLaunch (Some [("TERM_PROGRAM", VStr "mine")]) false)
       None None None Off []) "TERM_PROGRAM" <> Some (VStr "mine").
Proof. repeat split. discriminate. Qed.

(** C7 (amended). The environment returned by [createTerminalEnvironment]
    holds strings only, in both modes.  Without [strictEnv], a key that
    [launchConfig.env] maps to [null] is absent from the result, and so is a
    key that the configured overlay maps to [null] while [launchConfig.env]
    is silent on it; this for keys other than the marker keys, and for a base
    environment and overlays in which no two keys share a form. *)
Theorem C7_strings_only_and_surviving_deletions
    (toLowerCase toUpperCase : string -> string) (isWindows : bool)
    (language : option string)
    (sanitize : IProcessEnvironment -> list string -> IProcessEnvironment)
    (shellLaunchConfig : IShellLaunchConfig)
    (envFromConfig : option ITerminalEnvironment)
    (variableResolver : option VariableResolver)
    (version : option string) (detectLocale : DetectLocale)
    (baseEnv : IProcessEnvironment) :
  onlyRemoves sanitize ->
  let form := keyForm toLowerCase isWindows in
  let result :=
    createTerminalEnvironment toLowerCase toUpperCase isWindows language sanitize
      shellLaunchConfig envFromConfig variableResolver version detectLocale baseEnv in
  allStrings result /\
  (ShellLaunchConfig.strictEnv shellLaunchConfig = false ->
   distinctKeys form baseEnv ->
   forall k, notMarker form k ->
     (forall requested,
        ShellLaunchConfig.env shellLaunchConfig = Some requested ->
        distinctKeys form requested ->
        getOwn requested k = Some VNull ->
        lookupBy form result k = None) /\
     (distinctKeys form (spread envFromConfig) ->
      getOwn (spread envFromConfig) k = Some VNull ->
      (forall requested,
         ShellLaunchConfig.env shellLaunchConfig = Some requested ->
         wellFormed requested /\ silentOn form requested k) ->
      lookupBy form result k = None)).
Proof.
  intros Hr form result. split.
  - subst result.
    destruct (ShellLaunchConfig.strictEnv shellLaunchConfig) eqn:Hs.
    + unfold createTerminalEnvironment. rewrite Hs.
      apply mergeNonNullKeys_allStrings. constructor.
    + now apply create_allStrings_layers.
  - intros Hs NDb k Hm. subst result form. split.
    + intros requested E ND Hk. apply getOwn_In in Hk.
      eapply create_launch_null; eauto.
    + intros NDc Hk Hl. apply getOwn_In in Hk.
      rewrite create_launch_silent by assumption.
      now apply configured_null.
Qed.

Lemma C7_strings_only_and_surviving_deletions_witness :
  allStrings
    (createTerminalEnvironment asciiLower asciiUpper true (Some "en")
       sanitizeProcessEnvironmentSpec (mkLaunch (Some exRequested) false)
       (Some exConfig) (Some homeResolver) (Some "1.0") Auto exBase) /\
  lookupBy (keyForm asciiLower true)
    (createTerminalEnvironment asciiLower asciiUpper true (Some "en")
       sanitizeProcessEnvironmentSpec (mkLaunch (Some exRequested) false)
       (Some exConfig) (Some homeResolver) (Some "1.0") Auto exBase) "home" =
  None /\
  lookupBy (keyForm asciiLower true)
    (createTerminalEnvironment asciiLower asciiUpper true (Some "en")
       sanitizeProcessEnvironmentSpec (mkLaunch (Some exRequested) false)
       (Some exConfig) (Some homeResolver) (Some "1.0") Auto exBase) "EDITOR" =
  None.
Proof.
  destruct (C7_strings_only_and_surviving_deletions asciiLower asciiUpper true
              (Some "en") sanitizeProcessEnvironmentSpec
              (mkLaunch (Some exRequested) false)
              (Some exConfig) (Some homeResolver) (Some "1.0") Auto exBase
              sanitizeProcessEnvironmentSpec_onlyRemoves) as (Hall & Hdel).
  split; [exact Hall |].
  assert (NDb : distinctKeys (keyForm asciiLower true) exBase) by distinct_keys.
  split.
  - assert (Hm : notMarker (keyForm asciiLower true) "home") by not_marker.
    destruct (Hdel eq_refl NDb "home" Hm) as (Hlaunch & _).
    apply (Hlaunch exRequested); [reflexivity | distinct_keys | reflexivity].
  - assert (Hm : notMarker (keyForm asciiLower true) "EDITOR") by not_marker.
    destruct (Hdel eq_refl NDb "EDITOR" Hm) as (_ & Hcfg).
    apply Hcfg; [distinct_keys | reflexivity |].
    intros requested [= <-]. split; [distinct_keys |].
    unfold silentOn. repeat constructor; vm_compute; discriminate.
Defined.

(** C7 without the exception fails when a later layer writes the key again: the
    configured overlay maps [A] to [null], the launch configuration maps it to
    a string, and the result holds [A]. *)
Lemma C7_counterexample :
  getOwn [("A", VNull)] "A" = Some VNull /\
  getOwn
    (createTerminalEnvironment asciiLower asciiUpper false (Some "en")
       sanitizeProcessEnvironmentSpec
       (mkLaunch (Some [("A", VStr "1")]) false)
       (Some [("A", VNull)]) None None Off [("A", VStr "0")]) "A" =
  Some (VStr "1") /\
  getOwn
    (createTerminalEnvironment asciiLower asciiUpper false (Some "en")
       sanitizeProcessEnvironmentSpec
       (mkLaunch (Some [("A", VStr "1")]) false)
       (Some [("A", VNull)]) None None Off [("A", VStr "0")]) "A" <> None.
Proof. repeat split. discriminate. Qed.




(** ** Language tags *)

Lemma split_noDash (s : string) : noDash s = true -> split "-" s = [s].
Proof.
  induction s as [| a s IH]; simpl; [reflexivity |].
  destruct (Ascii.eqb a "-"); simpl; [discriminate |].
  intros H. now rewrite (IH H).
Qed.

Lemma split_segment (p rest : string) :
  noDash p = true ->
  split "-" (p ++ String "-" rest)%string = p :: split "-" rest.
Proof.
  induction p as [| a p IH]; simpl; [reflexivity |].
  destruct (Ascii.eqb a "-"); simpl; [discriminate |].
  intros H. now rewrite (IH H).
Qed.

Lemma split_join (parts : list string) :
  parts <> [] -> Forall (fun p => noDash p = true) parts ->
  split "-" (join "-" parts) = parts.
Proof.
  induction parts as [| p parts IH]; [congruence |].
  intros _ H. inversion H as [| ? ? Hp Hps]; subst.
  destruct parts as [| q parts].
  - simpl. now apply split_noDash.
  - change (join "-" (p :: q :: parts))
      with (p ++ String "-" (join "-" (q :: parts)))%string.
    rewrite split_segment by assumption.
    f_equal. apply IH; [discriminate | assumption].
Qed.

Lemma segment_not_empty (p rest : string) :
  String.eqb (p ++ String "-" rest)%string "" = false.
Proof. now destruct p. Qed.

(** C4 (amended). For a tag of two or more dash-separated segments,
    [getLangEnvVariable] returns all the segments joined by underscores, the
    second one in upper case and the others as they are, followed by
    [.UTF-8]: the segments after the second are kept, not ignored. *)
Theorem C4_second_segment_uppercased_others_kept
    (toUpperCase : string -> string)
    (language variant : string) (more : list string) :
  noDash language = true ->
  noDash variant = true ->
  Forall (fun p => noDash p = true) more ->
  getLangEnvVariable toUpperCase (Some (join "-" (language :: variant :: more))) =
  (join "_" (language :: toUpperCase variant :: more) ++ ".UTF-8")%string.
Proof.
  intros Hl Hv Hm. unfold getLangEnvVariable.
  assert (Hs : split "-" (join "-" (language :: variant :: more)) =
               language :: variant :: more).
  { apply split_join; [discriminate | now repeat constructor]. }
  change (join "-" (language :: variant :: more))
    with (language ++ String "-" (join "-" (variant :: more)))%string in *.
  unfold truthy. rewrite segment_not_empty. simpl negb. cbv iota.
  now rewrite Hs.
Qed.

(** The example of the specification: [en-gb] gives [en_GB.UTF-8]. *)
Lemma C4_second_segment_uppercased_others_kept_witness :
  getLangEnvVariable asciiUpper (Some "en-gb") = "en_GB.UTF-8".
Proof.
  apply (C4_second_segment_uppercased_others_kept asciiUpper "en" "gb" []);
    [reflexivity | reflexivity | constructor].
Defined.

(** C4 with the later segments ignored fails on a tag of three segments: the
    third one is part of the result. *)
Lemma C4_counterexample :
  getLangEnvVariable asciiUpper (Some "zh-hans-cn") = "zh_HANS_cn.UTF-8" /\
  getLangEnvVariable asciiUpper (Some "zh-hans-cn") <>
  ("zh" ++ "_" ++ asciiUpper "hans" ++ ".UTF-8")%string.
Proof. split; [reflexivity | discriminate]. Qed.

Lemma lookupTable_In (t : list (string * string)) (k v : string) :
  lookupTable t k = Some v -> In (k, v) t.
Proof.
  induction t as [| [k' v'] t IH]; simpl; [discriminate |].
  case_eqb k' k.
  - intros [= ->]. subst. now left.
  - intros H. right. auto.
Qed.

Lemma languageVariants_plain (language region : string) :
  lookupTable languageVariants language = Some region ->
  noDash language = true /\ language <> "".
Proof.
  intros H. apply lookupTable_In in H.
  assert (A : Forall (fun e => noDash (fst e) = true /\ fst e <> "") languageVariants).
  { unfold languageVariants. repeat constructor; discriminate. }
  rewrite Forall_forall in A. exact (A _ H).
Qed.

Lemma getLangEnvVariable_no_tag (toUpperCase : string -> string) :
  getLangEnvVariable toUpperCase None = "en_US.UTF-8" /\
  getLangEnvVariable toUpperCase (Some "") = "en_US.UTF-8".
Proof. split; reflexivity. Qed.

(** A language of the table is given the region of the table. *)
Lemma getLangEnvVariable_known (toUpperCase : string -> string)
    (language region : string) :
  lookupTable languageVariants language = Some region ->
  getLangEnvVariable toUpperCase (Some language) =
  (language ++ "_" ++ region ++ ".UTF-8")%string.
Proof.
  intros H. destruct (languageVariants_plain _ _ H) as (Hd & Hne).
  unfold getLangEnvVariable, truthy.
  rewrite (eqb_of_neq _ _ Hne). simpl negb. cbv iota.
  rewrite (split_noDash _ Hd).
  unfold inLanguageVariants, languageVariantsText. rewrite H. simpl.
  now rewrite !append_assoc.
Qed.

(** A single segment that names neither a language of the table nor a member
    of [Object.prototype] is given no region. *)
Lemma getLangEnvVariable_unknown (toUpperCase : string -> string)
    (language : string) :
  noDash language = true -> language <> "" ->
  lookupTable languageVariants language = None ->
  lookupTable objectPrototype language = None ->
  getLangEnvVariable toUpperCase (Some language) = (language ++ ".UTF-8")%string.
Proof.
  intros Hd Hne Ht Hp.
  unfold getLangEnvVariable, truthy.
  rewrite (eqb_of_neq _ _ Hne). simpl negb. cbv iota.
  rewrite (split_noDash _ Hd).
  unfold inLanguageVariants. now rewrite Ht, Hp.
Qed.

Example getLangEnvVariable_examples :
  getLangEnvVariable asciiUpper (Some "fr") = "fr_FR.UTF-8" /\
  getLangEnvVariable asciiUpper (Some "pt") = "pt_BR.UTF-8" /\
  getLangEnvVariable asciiUpper (Some "xx") = "xx.UTF-8".
Proof. repeat split. Qed.

(** C5. A single-segment tag that is not in the table is to be given no
    region; [toString] is a single segment, is not in the table, and is given
    one all the same, because [in] also finds the members that the table
    inherits from [Object.prototype]. *)
Theorem C5_inherited_name_is_given_a_region (toUpperCase : string -> string) :
  noDash "toString" = true /\
  lookupTable languageVariants "toString" = None /\
  getLangEnvVariable toUpperCase (Some "toString") =
  "toString_function toString() { [native code] }.UTF-8" /\
  getLangEnvVariable toUpperCase (Some "toString") <> "toString.UTF-8".
Proof. repeat split. discriminate. Qed.

(** ** Searching a string *)

Lemma searchFrom_found (m : string -> bool) (s : string) (i : Z) :
  (0 <= i)%Z ->
  (searchFrom m s i <> (-1)%Z <->
   exists pre suf : string, s = (pre ++ suf)%string /\ m suf = true).
Proof.
  revert i. induction s as [| a s IH]; intros i Hi; simpl.
  - destruct (m EmptyString) eqn:E.
    + split; [| lia]. intros _. now exists EmptyString, EmptyString.
    + split; [congruence |].
      intros (pre & suf & Hs & Hm).
      destruct pre; [| discriminate]. simpl in Hs. subst. congruence.
  - destruct (m (String a s)) eqn:E.
    + split; [| lia]. intros _. now exists EmptyString, (String a s).
    + rewrite IH by lia. split.
      * intros (pre & suf & -> & Hm). now exists (String a pre), suf.
      * intros (pre & suf & Hs & Hm). destruct pre as [| b pre]; simpl in Hs.
        -- subst. congruence.
        -- inversion Hs; subst. now exists pre, suf.
Qed.

Lemma search_found (m : string -> bool) (s : string) :
  Z.eqb (search m s) (-1) = false <->
  exists pre suf : string, s = (pre ++ suf)%string /\ m suf = true.
Proof.
  unfold search. rewrite Z.eqb_neq. apply searchFrom_found. lia.
Qed.

Lemma search_literal_end (lit s : string) :
  Z.eqb (search (fun rest => String.eqb rest lit) s) (-1) = false <->
  EndsWith s lit.
Proof.
  rewrite search_found. unfold EndsWith. split.
  - intros (pre & suf & -> & Hm). apply eqb_true in Hm. subst. now exists pre.
  - intros (pre & ->). exists pre, lit. split; [reflexivity | apply String.eqb_refl].
Qed.

Lemma reEuc_spec (rest : string) :
  reEuc rest = true <->
  exists (c : ascii) (post : string),
    rest = (".euc" ++ String c post)%string /\
    startsWithLineTerminator (String c post) = false.
Proof.
  split.
  - unfold reEuc. intros H.
    destruct rest as [| a0 [| a1 [| a2 [| a3 [| c post]]]]]; try discriminate.
    + now rewrite andb_false_r in H.
    + rewrite !andb_true_iff, !Ascii.eqb_eq, negb_true_iff in H.
      destruct H as ((((-> & ->) & ->) & ->) & H).
      now exists c, post.
  - intros (c & post & -> & H). unfold reEuc. simpl.
    now apply negb_true_iff.
Qed.

Lemma search_reEuc (s : string) :
  Z.eqb (search reEuc s) (-1) = false <-> ContainsEucThenChar s.
Proof.
  rewrite search_found. unfold ContainsEucThenChar. split.
  - intros (pre & suf & -> & Hm). apply reEuc_spec in Hm.
    destruct Hm as (c & post & -> & H). now exists pre, c, post.
  - intros (pre & c & post & -> & H).
    exists pre, (".euc" ++ String c post)%string. split; [reflexivity |].
    apply reEuc_spec. now exists c, post.
Qed.

Lemma EndsWith_not_empty (s lit : string) :
  lit <> "" -> EndsWith s lit -> s <> "".
Proof.
  intros Hl (pre & ->) H. destruct pre; simpl in H; [contradiction | discriminate].
Qed.

Lemma ContainsEucThenChar_not_empty (s : string) :
  ContainsEucThenChar s -> s <> "".
Proof.
  intros (pre & c & post & -> & _) H. destruct pre; discriminate.
Qed.

(** C6 (amended). [shouldSetLangEnvVariable] is true for the mode [on] and
    false for the mode [off]; for the mode [auto] it is false exactly when
    [env.LANG] is a string that ends with [.UTF-8], ends with [.utf8], or
    contains [.euc] followed by at least one character that is not a line
    terminator, and true otherwise. *)
Theorem C6_shouldSetLangEnvVariable (env : IProcessEnvironment) :
  shouldSetLangEnvVariable env On = true /\
  shouldSetLangEnvVariable env Off = false /\
  (shouldSetLangEnvVariable env Auto = false <->
   exists lang,
     getOwn env "LANG" = Some (VStr lang) /\
     (EndsWith lang ".UTF-8" \/ EndsWith lang ".utf8" \/ ContainsEucThenChar lang)).
Proof.
  split; [reflexivity |]. split; [reflexivity |].
  unfold shouldSetLangEnvVariable, prop.
  destruct (getOwn env "LANG") as [[lang | |] |].
  - rewrite orb_false_iff, !andb_false_iff.
    unfold reUTF8, reUtf8.
    rewrite !search_literal_end, search_reEuc.
    split.
    + intros (_ & H). exists lang. split; [reflexivity | tauto].
    + intros (lang' & [= <-] & H). split; [| tauto].
      apply eqb_of_neq.
      destruct H as [H | [H | H]].
      * eapply EndsWith_not_empty; [| exact H]. discriminate.
      * eapply EndsWith_not_empty; [| exact H]. discriminate.
      * now apply ContainsEucThenChar_not_empty.
  - split; [discriminate | intros (lang & H & _); discriminate].
  - split; [discriminate | intros (lang & H & _); discriminate].
  - split; [discriminate | intros (lang & H & _); discriminate].
Qed.

(** C6 as worded fails where [.euc] is followed by characters of which the
    first is a line terminator, and where it is followed by nothing: [LANG] is
    set and contains [.euc], and the result is true. *)
Lemma C6_counterexample :
  (exists pre post : string,
     eucThenLineFeed = (pre ++ ".euc" ++ post)%string /\ post <> EmptyString) /\
  getOwn [("LANG", VStr eucThenLineFeed)] "LANG" = Some (VStr eucThenLineFeed) /\
  shouldSetLangEnvVariable [("LANG", VStr eucThenLineFeed)] Auto = true /\
  Contains "x.euc" ".euc" /\
  shouldSetLangEnvVariable [("LANG", VStr "x.euc")] Auto = true.
Proof.
  split; [| split; [| split; [| split]]].
  - exists "x", (String "010"%char "y"). split; [reflexivity | discriminate].
  - reflexivity.
  - reflexivity.
  - now exists "x", EmptyString.
  - reflexivity.
Qed.

(** The examples of the specification. *)
Example shouldSetLangEnvVariable_examples :
  shouldSetLangEnvVariable [("LANG", VStr "en_US.UTF-8")] Auto = false /\
  shouldSetLangEnvVariable [] Auto = true /\
  shouldSetLangEnvVariable [("LANG", VStr "C")] Auto = true /\
  shouldSetLangEnvVariable [("LANG", VStr "ja_JP.eucJP")] Auto = false.
Proof. repeat split. Qed.

(** ** Substrings *)

Lemma prefix_spec (sub s : string) :
  String.prefix sub s = true <-> exists post : string, s = (sub ++ post)%string.
Proof.
  revert s. induction sub as [| a sub IH]; intros s.
  - split; [intros _; now exists s | now destruct s].
  - destruct s as [| b s]; simpl.
    + split; [discriminate | intros (post & H); discriminate].
    + destruct (ascii_dec a b) as [-> | Hab].
      * rewrite IH. split.
        -- intros (post & ->). now exists post.
        -- intros (post & H). inversion H. now exists post.
      * split; [discriminate |]. intros (post & H). inversion H. congruence.
Qed.

Lemma includes_Contains (s sub : string) :
  includes s sub = true <-> Contains s sub.
Proof.
  unfold Contains. induction s as [| a s IH]; cbn [includes].
  - rewrite orb_false_r, prefix_spec. split.
    + intros (post & H). now exists EmptyString, post.
    + intros (pre & post & H). destruct pre; [| discriminate]. now exists post.
  - rewrite orb_true_iff, prefix_spec, IH. split.
    + intros [(post & H) | (pre & post & ->)].
      * now exists EmptyString, post.
      * now exists (String a pre), post.
    + intros (pre & post & H). destruct pre as [| b pre]; simpl in H.
      * left. now exists post.
      * right. inversion H. now exists pre, post.
Qed.

(** ** The working directory *)

(** C8 (amended). When [launchConfig.cwd] is set, as a non-empty string or as
    a URI, [getCwd] does not consult the configured cwd, the workspace root or
    the user home: it returns the sanitized cwd itself when there is no
    resolver, the sanitized resolution when the resolver gives a non-empty
    string, and the sanitized unresolved literal when the resolver rejects or
    gives the empty string. *)
Theorem C8_explicit_cwd_wins
    (sanitizeCwd : string -> string) (isAbsolute : string -> bool)
    (pathJoin : string -> string -> string)
    (shell : IShellLaunchConfig) (userHome : option string)
    (variableResolver : option VariableResolver)
    (root : option URI) (customCwd : option string)
    (c : string + URI) :
  ShellLaunchConfig.cwd shell = Some c ->
  (forall s, c = inl s -> s <> "") ->
  let unresolved := match c with inl s => s | inr u => fsPath u end in
  let cwd := getCwd sanitizeCwd isAbsolute pathJoin shell userHome variableResolver
               root customCwd in
  (variableResolver = None -> cwd = sanitizeCwd unresolved) /\
  (forall r resolution,
     variableResolver = Some r -> r unresolved = Some resolution ->
     resolution <> "" -> cwd = sanitizeCwd resolution) /\
  (forall r,
     variableResolver = Some r ->
     r unresolved = None \/ r unresolved = Some "" ->
     cwd = sanitizeCwd unresolved) /\
  (forall userHome' root' customCwd',
     getCwd sanitizeCwd isAbsolute pathJoin shell userHome' variableResolver
       root' customCwd' = cwd).
Proof.
  intros Hc Hne unresolved cwd.
  assert (Hset : ifSet (ShellLaunchConfig.cwd shell) = Some c).
  { rewrite Hc. destruct c as [s | u]; simpl; [| reflexivity].
    now rewrite (eqb_of_neq s "") by now apply Hne. }
  subst cwd. unfold getCwd. rewrite Hset. fold unresolved.
  repeat split.
  - intros ->. simpl. unfold orElse.
    case_eqb unresolved ""; [now rewrite E | reflexivity].
  - intros r resolution -> Hr Hn. simpl. rewrite Hr. simpl.
    now rewrite (eqb_of_neq _ _ Hn).
  - intros r -> [Hr | Hr]; simpl; rewrite Hr; reflexivity.
Qed.

Lemma C8_explicit_cwd_wins_witness :
  getCwd (fun p => p) (fun _ => false) String.append
    (mkLaunchCwd (Some (inl "${home}"))) (Some "/users/u") (Some homeResolver)
    (Some {| fsPath := "/workspace" |}) (Some "sub") = "/home/u" /\
  getCwd (fun p => p) (fun _ => false) String.append
    (mkLaunchCwd (Some (inl "${other}"))) (Some "/users/u") (Some homeResolver)
    (Some {| fsPath := "/workspace" |}) (Some "sub") = "${other}".
Proof.
  split.
  - assert (Hne : forall s : string,
               @inl string URI "${home}" = inl s -> s <> "").
    { intros s [= <-]. discriminate. }
    destruct (C8_explicit_cwd_wins (fun p => p) (fun _ => false) String.append
                (mkLaunchCwd (Some (inl "${home}"))) (Some "/users/u")
                (Some homeResolver) (Some {| fsPath := "/workspace" |})
                (Some "sub") (inl "${home}") eq_refl Hne) as (_ & Hres & _).
    apply (Hres homeResolver "/home/u"); [reflexivity | reflexivity | discriminate].
  - assert (Hne : forall s : string,
               @inl string URI "${other}" = inl s -> s <> "").
    { intros s [= <-]. discriminate. }
    destruct (C8_explicit_cwd_wins (fun p => p) (fun _ => false) String.append
                (mkLaunchCwd (Some (inl "${other}"))) (Some "/users/u")
                (Some homeResolver) (Some {| fsPath := "/workspace" |})
                (Some "sub") (inl "${other}") eq_refl Hne) as (_ & _ & Hrej & _).
    apply (Hrej homeResolver); [reflexivity | now left].
Defined.

(** C8 without the proviso fails when the resolver succeeds with the empty
    string: the resolution is empty, and what is returned is the unresolved
    literal (here with a sanitizer that leaves the path as it is). *)
Lemma C8_counterexample :
  emptyResolver "${unset}" = Some "" /\
  getCwd (fun p => p) (fun _ => false) String.append
    (mkLaunchCwd (Some (inl "${unset}"))) None (Some emptyResolver) None None =
  "${unset}" /\
  getCwd (fun p => p) (fun _ => false) String.append
    (mkLaunchCwd (Some (inl "${unset}"))) None (Some emptyResolver) None None <>
  (fun p : string => p) "".
Proof. repeat split. discriminate. Qed.

(** ** Paths for PowerShell *)

(** C9 (amended). When an executable is supplied (a non-empty string), the
    target shell is PowerShell (the base name of the executable without
    [.exe], or the title, is [pwsh] or [powershell]) and the path contains a
    space or a single quote, [preparePathForShell] returns the path between
    [& '] and ['] with every single quote doubled, whatever the target
    operating system, the shell type and the backend are. *)
Theorem C9_powershell_path_is_quoted
    (basename : string -> string -> string)
    (escapeNonWindowsPath toLowerCase : string -> string)
    (resource : string + URI) (executable title : string)
    (shellType : option TerminalShellType) (backend : option ITerminalBackend)
    (os : option OperatingSystem) (isWindowsFrontend : bool) :
  executable <> "" ->
  (basename executable ".exe" = "pwsh" \/ basename executable ".exe" = "powershell" \/
   title = "pwsh" \/ title = "powershell") ->
  let originalPath := originalPathOf resource os isWindowsFrontend in
  (Contains originalPath " " \/ Contains originalPath "'") ->
  preparePathForShell basename escapeNonWindowsPath toLowerCase
    resource (Some executable) title shellType backend os isWindowsFrontend =
  ("& '" ++ replaceAll "'" "''" originalPath ++ "'")%string.
Proof.
  intros Hne Hps originalPath Hc. unfold preparePathForShell.
  rewrite (eqb_of_neq _ _ Hne). fold originalPath.
  assert (Hp : isPowerShell basename executable title = true).
  { unfold isPowerShell. rewrite !orb_true_iff, !String.eqb_eq. tauto. }
  assert (Hq : includes originalPath " " || includes originalPath "'" = true).
  { rewrite orb_true_iff, !includes_Contains. exact Hc. }
  now rewrite Hp, Hq.
Qed.

(** The example of the specification: the executable [pwsh] and the path
    [/a b/c] give [& '/a b/c']. *)
Lemma C9_powershell_path_is_quoted_witness :
  preparePathForShell basenameSpec (fun p => p) asciiLower
    (inl "/a b/c") (Some "pwsh") "" None None (Some Linux) false = "& '/a b/c'" /\
  preparePathForShell basenameSpec (fun p => p) asciiLower
    (inl "/a's/c") (Some "/opt/microsoft/powershell.exe") ""
    None None (Some Windows) true = "& '/a''s/c'".
Proof.
  split.
  - apply (C9_powershell_path_is_quoted basenameSpec (fun p => p) asciiLower
             (inl "/a b/c") "pwsh" "" None None (Some Linux) false).
    + discriminate.
    + left. reflexivity.
    + left. now exists "/a", "b/c".
  - apply (C9_powershell_path_is_quoted basenameSpec (fun p => p) asciiLower
             (inl "/a's/c") "/opt/microsoft/powershell.exe" ""
             None None (Some Windows) true).
    + discriminate.
    + right. left. reflexivity.
    + right. now exists "/a", "s/c".
Defined.

(** C9 without the proviso fails when no executable is supplied: the title names
    PowerShell and the path has a space, and the path is returned as it is. *)
Lemma C9_counterexample :
  Contains "/a b/c" " " /\
  preparePathForShell basenameSpec (fun p => p) asciiLower
    (inl "/a b/c") None "pwsh" None None (Some Linux) false = "/a b/c" /\
  preparePathForShell basenameSpec (fun p => p) asciiLower
    (inl "/a b/c") None "pwsh" None None (Some Linux) false <> "& '/a b/c'".
Proof.
  split; [now exists "/a", "b/c" |]. split; [reflexivity | discriminate].
Qed.

(** * Further properties of the module *)

(** ** What a merge leaves under every key *)

Section OverlayFacts.

Variable form : string -> string.

Lemma lookupBy_found (o : object) (k : string) (v : value) :
  lookupBy form o k = Some v -> exists a, In (a, v) o /\ form a = form k.
Proof.
  induction o as [| [k0 v0] o IH]; simpl; [discriminate |].
  case_eqb (form k0) (form k).
  - intros [= ->]. exists k0. split; [now left | assumption].
  - intros H. destruct (IH H) as (a & Ha & Hf).
    exists a. split; [now right | assumption].
Qed.

Lemma lookupBy_sameForm (o : object) (k k' : string) :
  form k = form k' -> lookupBy form o k = lookupBy form o k'.
Proof.
  intros E. induction o as [| [k0 v0] o IH]; simpl; [reflexivity |].
  now rewrite E, IH.
Qed.

Lemma lookupBy_silent (o : object) (k : string) :
  distinctKeys form o ->
  lookupBy form o k = None \/ lookupBy form o k = Some VUndefined ->
  silentOn form o k.
Proof.
  unfold silentOn. induction o as [| [k0 v0] o IH]; simpl; intros ND H.
  - constructor.
  - case_eqb (form k0) (form k).
    + constructor.
      * simpl. intros _. destruct H as [H | H]; [discriminate | congruence].
      * pose proof (distinctKeys_NoMatch form _ _ _ _ ND E) as Hn.
        unfold NoMatch in Hn. rewrite Forall_forall in *.
        intros e He Hf. exfalso.
        apply (Hn (fst e)); [now apply in_map | assumption].
    + constructor.
      * simpl. intros Hf. contradiction.
      * apply IH; [| assumption].
        unfold distinctKeys in *. simpl in ND. now inversion ND.
Qed.

Lemma lookupBy_None (o : object) (k : string) :
  lookupBy form o k = None -> NoMatch form (keys o) k.
Proof.
  unfold NoMatch. induction o as [| [k0 v0] o IH]; simpl; [constructor |].
  case_eqb (form k0) (form k); [discriminate |].
  intros H. constructor; auto.
Qed.

(** A string under the overlay key [__proto__] is written when the
    environment has a key of that form, and dropped otherwise. *)
Lemma merge_string_proto (other env : object) (s : string) :
  distinctKeys form other -> In ("__proto__", VStr s) other ->
  lookupBy form (fold_left (mergeEntry form) other env) "__proto__" =
  match lookupBy form env "__proto__" with
  | Some _ => Some (VStr s)
  | None => None
  end.
Proof.
  revert env. induction other as [| [k0 v0] other IH]; simpl; intros env ND Hin.
  - contradiction.
  - destruct Hin as [H | H].
    + inversion H; subst.
      rewrite merge_silent by (eapply distinct_tail_silent; eauto).
      rewrite lookupBy_mergeEntry_str, String.eqb_refl. simpl.
      destruct (lookupBy form env "__proto__") as [v |] eqn:L.
      * destruct (match_or_not form (keys env) "__proto__") as [(a & Ha) | Hn].
        -- now rewrite (writable_actual_match form _ _ _ Ha).
        -- rewrite lookupBy_NoMatch in L by assumption. discriminate.
      * now rewrite writable_actual_proto by (now apply lookupBy_None).
    + assert (Hf : form k0 <> form "__proto__").
      { intros E. pose proof (distinctKeys_NoMatch form _ _ _ _ ND E) as Hn.
        unfold NoMatch in Hn. rewrite Forall_forall in Hn.
        apply (Hn "__proto__"); [| reflexivity].
        change "__proto__" with (fst ("__proto__", VStr s)). now apply in_map. }
      rewrite IH; [| | assumption].
      * now rewrite (lookupBy_mergeEntry_other form env (k0, v0) "__proto__" Hf).
      * unfold distinctKeys in *. simpl in ND. now inversion ND.
Qed.

Lemma distinctKeys_sameForm (o : object) (a b : string) :
  distinctKeys form o -> In a (keys o) -> In b (keys o) -> form a = form b ->
  a = b.
Proof.
  unfold distinctKeys.
  induction o as [| [k0 v0] o IH]; simpl; [tauto |].
  intros ND Ha Hb E. inversion ND as [| ? ? Hn ND']; subst.
  destruct Ha as [-> | Ha], Hb as [-> | Hb].
  - reflexivity.
  - exfalso. apply Hn. rewrite E. now apply in_map.
  - exfalso. apply Hn. rewrite <- E. now apply in_map.
  - auto.
Qed.

Lemma protoDropped_true (other parent : object) (k : string) :
  protoDropped form other parent k = true ->
  exists s,
    In ("__proto__", VStr s) other /\ form k = form "__proto__" /\
    lookupBy form parent k = None.
Proof.
  unfold protoDropped.
  destruct (getOwn other "__proto__") as [[s | |] |] eqn:G; try discriminate.
  intros H. apply andb_prop in H. destruct H as (Hf & Hl).
  exists s. split; [now apply getOwn_In |]. split; [now apply eqb_true |].
  now destruct (lookupBy form parent k).
Qed.

Lemma protoDropped_other (other parent : object) (a k : string) (v : value) :
  distinctKeys form other -> In (a, v) other -> form a = form k ->
  a <> "__proto__" -> protoDropped form other parent k = false.
Proof.
  intros ND Ha Hf P.
  destruct (protoDropped form other parent k) eqn:D; [| reflexivity].
  destruct (protoDropped_true _ _ _ D) as (s & Hin & Hk & _).
  exfalso. apply P. apply (distinctKeys_sameForm other); try assumption.
  - change a with (fst (a, v)). now apply in_map.
  - change "__proto__" with (fst ("__proto__", VStr s)). now apply in_map.
  - congruence.
Qed.

Lemma merge_lookup (other env : object) (k : string) :
  distinctKeys form other -> distinctKeys form env ->
  lookupBy form (fold_left (mergeEntry form) other env) k =
  if protoDropped form other env k then None
  else overlaid (lookupBy form other k) (lookupBy form env k).
Proof.
  intros NDo NDe.
  pose proof (distinctKeys_wellFormed _ _ NDo) as W.
  destruct (lookupBy form other k) as [[s | |] |] eqn:E; simpl.
  - destruct (lookupBy_found _ _ _ E) as (a & Ha & Hf).
    case_eqb a "__proto__".
    + subst a. rewrite <- (lookupBy_sameForm _ "__proto__" k Hf).
      rewrite (merge_string_proto other env s NDo Ha).
      unfold protoDropped. rewrite (In_getOwn _ _ _ W Ha).
      rewrite <- Hf, String.eqb_refl. simpl.
      rewrite <- (lookupBy_sameForm env "__proto__" k Hf).
      now destruct (lookupBy form env "__proto__").
    + rewrite (protoDropped_other other env a k _ NDo Ha Hf E0).
      rewrite <- (lookupBy_sameForm _ a k Hf). now apply merge_string.
  - destruct (lookupBy_found _ _ _ E) as (a & Ha & Hf).
    rewrite <- (lookupBy_sameForm _ a k Hf), merge_null by assumption.
    now destruct (protoDropped form other env k).
  - rewrite merge_silent by (apply lookupBy_silent; auto).
    destruct (protoDropped form other env k) eqn:D; [| reflexivity].
    now destruct (protoDropped_true _ _ _ D) as (_ & _ & _ & ->).
  - rewrite merge_silent by (apply lookupBy_silent; auto).
    destruct (protoDropped form other env k) eqn:D; [| reflexivity].
    now destruct (protoDropped_true _ _ _ D) as (_ & _ & _ & ->).
Qed.

(** Merging the same overlay again changes no reading. *)
Lemma merge_lookup_twice (other env : object) (k : string) :
  distinctKeys form other -> distinctKeys form env ->
  lookupBy form
    (fold_left (mergeEntry form) other (fold_left (mergeEntry form) other env)) k =
  lookupBy form (fold_left (mergeEntry form) other env) k.
Proof.
  intros NDo NDe.
  rewrite merge_lookup; [| assumption | now apply merge_distinctKeys].
  unfold protoDropped at 1.
  destruct (lookupBy form (fold_left (mergeEntry form) other env) k)
    as [v |] eqn:L1.
  - rewrite andb_false_r.
    assert (R : (match getOwn other "__proto__" with
                 | Some (VStr _) => false
                 | _ => false
                 end) = false)
      by (now destruct (getOwn other "__proto__") as [[? | |] |]).
    rewrite R. rewrite merge_lookup in L1 by assumption.
    destruct (protoDropped form other env k); [discriminate |].
    now destruct (lookupBy form other k) as [[s | |] |].
  - rewrite merge_lookup in L1 by assumption.
    destruct (protoDropped form other env k) eqn:D.
    + destruct (protoDropped_true _ _ _ D) as (s & Hin & Hf & _).
      rewrite (In_getOwn _ _ _ (distinctKeys_wellFormed _ _ NDo) Hin).
      now rewrite Hf, String.eqb_refl.
    + assert (H : overlaid (lookupBy form other k) None = None).
      { destruct (lookupBy form other k) as [[s | |] |]; simpl in *;
          congruence. }
      rewrite H.
      match goal with
      | |- (if ?c then _ else _) = _ => now destruct c
      end.
Qed.

Lemma wellFormed_filter (o : object) (f : string * value -> bool) :
  wellFormed o -> wellFormed (filter f o).
Proof.
  intros W. pose proof (distinctKeys_filter (fun x => x) o f) as H.
  unfold distinctKeys in H. rewrite !map_id in H. now apply H.
Qed.

Lemma wellFormed_mergeEntry (env : object) (e : string * value) :
  wellFormed env -> wellFormed (mergeEntry form env e).
Proof.
  intros W. destruct e as [k [s | |]]; unfold mergeEntry; simpl.
  - now apply wellFormed_setProp.
  - now apply wellFormed_filter.
  - assumption.
Qed.

Lemma merge_wellFormed (other env : object) :
  wellFormed env -> wellFormed (fold_left (mergeEntry form) other env).
Proof.
  revert env. induction other as [| e other IH]; simpl; intros env W.
  - assumption.
  - apply IH. now apply wellFormed_mergeEntry.
Qed.

End OverlayFacts.

(** X1. What [mergeEnvironments] leaves under a key, read case-aware on
    Windows and exactly elsewhere: the string of the overlay when the overlay
    holds one for the key, nothing when the overlay holds [null], and what
    the base held when the overlay holds [undefined] or has no entry.  One
    write is dropped: a string that the overlay holds under its key
    [__proto__] when the base has no key of that form, and the key then stays
    absent.  This when neither the overlay nor the base has two keys of one
    form. *)
Theorem X1_mergeEnvironments_lookup
    (toLowerCase : string -> string) (isWindows : bool)
    (parent : IProcessEnvironment) (other : ITerminalEnvironment) (k : string) :
  distinctKeys (keyForm toLowerCase isWindows) other ->
  distinctKeys (keyForm toLowerCase isWindows) parent ->
  lookupBy (keyForm toLowerCase isWindows)
    (mergeEnvironments toLowerCase isWindows parent (Some other)) k =
  if protoDropped (keyForm toLowerCase isWindows) other parent k then None
  else
    overlaid (lookupBy (keyForm toLowerCase isWindows) other k)
      (lookupBy (keyForm toLowerCase isWindows) parent k).
Proof.
  intros NDo NDe.
  rewrite mergeEnvironments_entries by (eapply distinctKeys_wellFormed; eauto).
  now apply merge_lookup.
Qed.

Lemma X1_mergeEnvironments_lookup_witness :
  lookupBy (keyForm asciiLower true)
    (mergeEnvironments asciiLower true exBase (Some exRequested)) "Home" = None /\
  lookupBy (keyForm asciiLower true)
    (mergeEnvironments asciiLower true exBase (Some exRequested)) "PATH" =
  Some (VStr "${home}").
Proof.
  assert (NDo : distinctKeys (keyForm asciiLower true) exRequested) by distinct_keys.
  assert (NDe : distinctKeys (keyForm asciiLower true) exBase) by distinct_keys.
  split.
  - rewrite (X1_mergeEnvironments_lookup asciiLower true exBase exRequested "Home"
               NDo NDe). reflexivity.
  - rewrite (X1_mergeEnvironments_lookup asciiLower true exBase exRequested "PATH"
               NDo NDe). reflexivity.
Defined.

(** On a base without such a key, the string under [__proto__] is dropped
    and the other entries are merged. *)
Example merge_lookup_proto_example :
  protoDropped (keyForm asciiLower false)
    [("__proto__", VStr "x"); ("A", VStr "2")] [("A", VStr "1")] "__proto__" =
  true /\
  mergeEnvironments asciiLower false [("A", VStr "1")]
    (Some [("__proto__", VStr "x"); ("A", VStr "2")]) = [("A", VStr "2")].
Proof. split; reflexivity. Qed.

(** X2. [mergeEnvironments] keeps three invariants of the base, whatever the
    overlay is: no two keys of one form (on Windows: equal up to case), no
    key twice, and no value other than a string. *)
Theorem X2_mergeEnvironments_invariants
    (toLowerCase : string -> string) (isWindows : bool)
    (parent : IProcessEnvironment) (other : option ITerminalEnvironment) :
  (distinctKeys (keyForm toLowerCase isWindows) parent ->
   distinctKeys (keyForm toLowerCase isWindows)
     (mergeEnvironments toLowerCase isWindows parent other)) /\
  (wellFormed parent ->
   wellFormed (mergeEnvironments toLowerCase isWindows parent other)) /\
  (allStrings parent ->
   allStrings (mergeEnvironments toLowerCase isWindows parent other)).
Proof.
  split; [| split].
  - apply mergeEnvironments_distinctKeys.
  - intros W. destruct other as [other |]; [| assumption].
    rewrite mergeEnvironments_keys. now apply merge_wellFormed.
  - apply mergeEnvironments_allStrings.
Qed.

Lemma X2_mergeEnvironments_invariants_witness :
  distinctKeys (keyForm asciiLower true)
    (mergeEnvironments asciiLower true exBase (Some exConfig)) /\
  allStrings (mergeEnvironments asciiLower true exBase (Some exConfig)).
Proof.
  destruct (X2_mergeEnvironments_invariants asciiLower true exBase (Some exConfig))
    as (Hd & _ & Hs).
  split.
  - apply Hd. distinct_keys.
  - apply Hs. repeat constructor.
Defined.

(** X3. Merging an overlay a second time changes nothing that a reader of the
    environment can see: under every key the environment merged twice reads
    as the environment merged once. *)
Theorem X3_mergeEnvironments_twice
    (toLowerCase : string -> string) (isWindows : bool)
    (parent : IProcessEnvironment) (other : ITerminalEnvironment) (k : string) :
  distinctKeys (keyForm toLowerCase isWindows) other ->
  distinctKeys (keyForm toLowerCase isWindows) parent ->
  lookupBy (keyForm toLowerCase isWindows)
    (mergeEnvironments toLowerCase isWindows
       (mergeEnvironments toLowerCase isWindows parent (Some other))
       (Some other)) k =
  lookupBy (keyForm toLowerCase isWindows)
    (mergeEnvironments toLowerCase isWindows parent (Some other)) k.
Proof.
  intros NDo NDe.
  pose proof (distinctKeys_wellFormed _ _ NDo) as W.
  rewrite !mergeEnvironments_entries by assumption.
  now apply merge_lookup_twice.
Qed.

Lemma X3_mergeEnvironments_twice_witness :
  lookupBy (keyForm asciiLower true)
    (mergeEnvironments asciiLower true
       (mergeEnvironments asciiLower true exBase (Some exConfig))
       (Some exConfig)) "path" =
  lookupBy (keyForm asciiLower true)
    (mergeEnvironments asciiLower true exBase (Some exConfig)) "path".
Proof.
  apply (X3_mergeEnvironments_twice asciiLower true exBase exConfig "path");
    distinct_keys.
Defined.

(** ** mergeNonNullKeys on any environment *)

(** X4. [mergeNonNullKeys] writes the string entries of the overlay and
    nothing else: a key reads afterwards as the string the overlay holds for
    it - but for the key [__proto__] when the environment has no own property
    of that name, where the string is dropped and the key stays absent - and
    as before when the overlay holds [null] or [undefined] for it or has no
    entry: [null] does not delete here.  No key of the environment is lost,
    and without an overlay the environment is returned as it is. *)
Theorem X4_mergeNonNullKeys_lookup
    (env : IProcessEnvironment) (other : ITerminalEnvironment) :
  (forall k,
     getOwn (mergeNonNullKeys env (Some other)) k =
     match getOwn other k with
     | Some (VStr s) =>
         if String.eqb k "__proto__" && negb (hasOwn env k) then None
         else Some (VStr s)
     | _ => getOwn env k
     end) /\
  (forall k, In k (keys env) -> In k (keys (mergeNonNullKeys env (Some other)))) /\
  mergeNonNullKeys env None = env.
Proof.
  assert (L : forall k,
     getOwn (mergeNonNullKeys env (Some other)) k =
     match getOwn other k with
     | Some (VStr s) =>
         if String.eqb k "__proto__" && negb (hasOwn env k) then None
         else Some (VStr s)
     | _ => getOwn env k
     end).
  { intros k. rewrite getOwn_mergeNonNullKeys_any. unfold writable.
    destruct (getOwn other k) as [[s | |] |]; try reflexivity.
    destruct (hasOwn env k) eqn:O; simpl.
    - now rewrite andb_false_r.
    - rewrite andb_true_r. destruct (String.eqb k "__proto__"); simpl;
        [| reflexivity].
      now apply getOwn_None, hasOwn_false. }
  split; [exact L |]. split; [| reflexivity].
  intros k Hin.
  destruct (in_dec string_dec k (keys (mergeNonNullKeys env (Some other))))
    as [H | H]; [assumption |].
  apply getOwn_None in H. rewrite L in H.
  assert (Hk : getOwn env k <> None) by (now rewrite getOwn_None; intros F; apply F).
  pose proof (proj2 (hasOwn_true env k) Hin) as O. rewrite O in H. simpl in H.
  rewrite andb_false_r in H.
  destruct (getOwn other k) as [[s | |] |]; congruence.
Qed.

(** The copy of [{__proto__: "x", A: "1"}] into an empty object is
    [{A: "1"}]. *)
Example mergeNonNullKeys_proto_example :
  mergeNonNullKeys [] (Some [("__proto__", VStr "x"); ("A", VStr "1")]) =
  [("A", VStr "1")].
Proof. reflexivity. Qed.

(** ** resolveConfigurationVariables, entry by entry *)

Lemma getOwn_map_values (g : value -> value) (o : object) (k : string) :
  getOwn (map (fun e => (fst e, g (snd e))) o) k = option_map g (getOwn o k).
Proof.
  induction o as [| [k0 v0] o IH]; simpl; [reflexivity |].
  now destruct (String.eqb k0 k).
Qed.

(** X5. [resolveConfigurationVariables] keeps the keys of the object and
    their order; under every key it leaves [null] and [undefined] as they
    are, replaces a string by what the resolver returns for it, and keeps the
    string when the resolver rejects it. *)
Theorem X5_resolveConfigurationVariables_entrywise
    (variableResolver : VariableResolver) (env : ITerminalEnvironment) :
  wellFormed env ->
  keys (resolveConfigurationVariables variableResolver env) = keys env /\
  forall k,
    getOwn (resolveConfigurationVariables variableResolver env) k =
    match getOwn env k with
    | Some (VStr s) =>
        match variableResolver s with
        | Some s' => Some (VStr s')
        | None => Some (VStr s)
        end
    | other => other
    end.
Proof.
  intros W. rewrite resolveConfigurationVariables_map by assumption. split.
  - unfold keys. now rewrite map_map.
  - intros k. rewrite getOwn_map_values.
    destruct (getOwn env k) as [[s | |] |]; simpl; try reflexivity.
    now destruct (variableResolver s).
Qed.

Lemma X5_resolveConfigurationVariables_entrywise_witness :
  keys (resolveConfigurationVariables homeResolver exRequested) = keys exRequested /\
  getOwn (resolveConfigurationVariables homeResolver exRequested) "path" =
  Some (VStr "/home/u") /\
  getOwn (resolveConfigurationVariables homeResolver exRequested) "VSCODE_PROXY_URI" =
  Some (VStr "p").
Proof.
  assert (W : wellFormed exRequested) by distinct_keys.
  destruct (X5_resolveConfigurationVariables_entrywise homeResolver exRequested W)
    as (Hk & Hv).
  split; [exact Hk |]. split.
  - rewrite Hv. reflexivity.
  - rewrite Hv. reflexivity.
Defined.

(** X6. A resolver that rejects every string of the object, or returns it
    unchanged, leaves the object as it is: a failing resolution costs
    nothing. *)
Theorem X6_resolveConfigurationVariables_failure
    (variableResolver : VariableResolver) (env : ITerminalEnvironment) :
  wellFormed env ->
  (forall k s, In (k, VStr s) env ->
     variableResolver s = None \/ variableResolver s = Some s) ->
  resolveConfigurationVariables variableResolver env = env.
Proof.
  intros W H. rewrite resolveConfigurationVariables_map by assumption.
  rewrite <- (map_id env) at 2. apply map_ext_in.
  intros [k [s | |]] Hin; simpl; try reflexivity.
  destruct (H k s Hin) as [-> | ->]; reflexivity.
Qed.

Lemma X6_resolveConfigurationVariables_failure_witness :
  resolveConfigurationVariables rejectAll exRequested = exRequested.
Proof.
  apply X6_resolveConfigurationVariables_failure.
  - distinct_keys.
  - intros k s _. now left.
Defined.

(** ** The marker keys *)

Lemma shouldSetLangEnvVariable_ext (e1 e2 : IProcessEnvironment)
    (detectLocale : DetectLocale) :
  getOwn e1 "LANG" = getOwn e2 "LANG" ->
  shouldSetLangEnvVariable e1 detectLocale =
  shouldSetLangEnvVariable e2 detectLocale.
Proof.
  intros H. unfold shouldSetLangEnvVariable, prop. now rewrite H.
Qed.

Lemma setProp_same (o : object) (k : string) (v : value) :
  getOwn o k = Some v -> setProp o k v = o.
Proof.
  intros H. rewrite setProp_own.
  - induction o as [| [k0 v0] o IH]; simpl in *; [discriminate |].
    case_eqb k0 k.
    + now injection H as ->.
    + now rewrite IH.
  - destruct (in_dec string_dec k (keys o)) as [I | I]; [assumption |].
    apply getOwn_None in I. congruence.
Qed.

Section MarkerFacts.

Variable toUpperCase : string -> string.
Variable env : IProcessEnvironment.
Variable version locale : option string.
Variable detectLocale : DetectLocale.

Let marked :=
  addTerminalEnvironmentKeys toUpperCase env version locale detectLocale.

(** The environment when the locale is decided. *)
Let versioned :=
  match version with
  | Some v =>
      if truthy version
      then setProp (setProp env "TERM_PROGRAM" (VStr "vscode"))
             "TERM_PROGRAM_VERSION" (VStr v)
      else setProp env "TERM_PROGRAM" (VStr "vscode")
  | None => setProp env "TERM_PROGRAM" (VStr "vscode")
  end.

Lemma marked_eq :
  marked =
  setProp
    (if shouldSetLangEnvVariable env detectLocale
     then setProp versioned "LANG" (VStr (getLangEnvVariable toUpperCase locale))
     else versioned)
    "COLORTERM" (VStr "truecolor").
Proof.
  unfold marked, addTerminalEnvironmentKeys. fold versioned.
  rewrite (shouldSetLangEnvVariable_ext versioned env); [reflexivity |].
  unfold versioned. destruct version as [v |]; [destruct (truthy (Some v)) |];
    now rewrite ?getOwn_setProp_plain by discriminate.
Qed.

Lemma versioned_lookup (k : string) :
  getOwn versioned k =
  if String.eqb "TERM_PROGRAM_VERSION" k && truthy version
  then option_map VStr version
  else if String.eqb "TERM_PROGRAM" k then Some (VStr "vscode")
  else getOwn env k.
Proof.
  unfold versioned. destruct version as [v |].
  - destruct (truthy (Some v)); rewrite ?getOwn_setProp_plain by discriminate.
    + now destruct (String.eqb "TERM_PROGRAM_VERSION" k).
    + now rewrite andb_false_r.
  - rewrite getOwn_setProp_plain by discriminate. now rewrite andb_false_r.
Qed.

Lemma marked_lookup (k : string) :
  getOwn marked k =
  if String.eqb "COLORTERM" k then Some (VStr "truecolor")
  else if String.eqb "LANG" k && shouldSetLangEnvVariable env detectLocale
  then Some (VStr (getLangEnvVariable toUpperCase locale))
  else getOwn versioned k.
Proof.
  rewrite marked_eq, getOwn_setProp_plain by discriminate.
  destruct (String.eqb "COLORTERM" k); [reflexivity |].
  destruct (shouldSetLangEnvVariable env detectLocale).
  - rewrite getOwn_setProp_plain by discriminate.
    now destruct (String.eqb "LANG" k).
  - now rewrite andb_false_r.
Qed.

End MarkerFacts.

(** X7. After [addTerminalEnvironmentKeys] the environment maps
    [TERM_PROGRAM] to [vscode] and [COLORTERM] to [truecolor], whatever it
    held; [TERM_PROGRAM_VERSION] is the version when one is given and
    non-empty and is left as it was otherwise; [LANG] is the locale value when
    [shouldSetLangEnvVariable] says so for the environment received, and is
    left as it was otherwise. *)
Theorem X7_addTerminalEnvironmentKeys_values
    (toUpperCase : string -> string) (env : IProcessEnvironment)
    (version locale : option string) (detectLocale : DetectLocale) :
  let marked :=
    addTerminalEnvironmentKeys toUpperCase env version locale detectLocale in
  getOwn marked "TERM_PROGRAM" = Some (VStr "vscode") /\
  getOwn marked "COLORTERM" = Some (VStr "truecolor") /\
  getOwn marked "TERM_PROGRAM_VERSION" =
    (if truthy version then option_map VStr version
     else getOwn env "TERM_PROGRAM_VERSION") /\
  getOwn marked "LANG" =
    (if shouldSetLangEnvVariable env detectLocale
     then Some (VStr (getLangEnvVariable toUpperCase locale))
     else getOwn env "LANG").
Proof.
  intros marked. subst marked. repeat split.
  - rewrite (marked_lookup toUpperCase env version locale detectLocale),
      (versioned_lookup toUpperCase env version locale detectLocale). reflexivity.
  - rewrite (marked_lookup toUpperCase env version locale detectLocale). reflexivity.
  - rewrite (marked_lookup toUpperCase env version locale detectLocale),
      (versioned_lookup toUpperCase env version locale detectLocale). simpl.
    now destruct (truthy version).
  - rewrite (marked_lookup toUpperCase env version locale detectLocale),
      (versioned_lookup toUpperCase env version locale detectLocale). simpl.
    now destruct (shouldSetLangEnvVariable env detectLocale).
Qed.

(** X8. [addTerminalEnvironmentKeys] touches the four marker keys only: every
    other key reads afterwards as before, no key is lost, and an environment
    without repeated keys stays so. *)
Theorem X8_addTerminalEnvironmentKeys_frame
    (toUpperCase : string -> string) (env : IProcessEnvironment)
    (version locale : option string) (detectLocale : DetectLocale) :
  let marked :=
    addTerminalEnvironmentKeys toUpperCase env version locale detectLocale in
  (forall k, ~ In k markerKeys -> getOwn marked k = getOwn env k) /\
  (forall k, In k (keys env) -> In k (keys marked)) /\
  (wellFormed env -> wellFormed marked).
Proof.
  intros marked. subst marked.
  assert (F : forall k, ~ In k markerKeys ->
            getOwn (addTerminalEnvironmentKeys toUpperCase env version locale
                      detectLocale) k = getOwn env k).
  { intros k Hk. rewrite (marked_lookup toUpperCase env version locale detectLocale),
      (versioned_lookup toUpperCase env version locale detectLocale).
    unfold markerKeys in Hk. simpl in Hk.
    rewrite (eqb_of_neq "COLORTERM" k), (eqb_of_neq "LANG" k),
      (eqb_of_neq "TERM_PROGRAM_VERSION" k), (eqb_of_neq "TERM_PROGRAM" k)
      by tauto.
    reflexivity. }
  split; [exact F |]. split.
  - intros k Hin.
    destruct (in_dec string_dec k
                (keys (addTerminalEnvironmentKeys toUpperCase env version locale
                         detectLocale))) as [H | H]; [assumption |].
    exfalso. apply getOwn_None in H.
    destruct (in_dec string_dec k markerKeys) as [Hm | Hm].
    + rewrite (marked_lookup toUpperCase env version locale detectLocale),
      (versioned_lookup toUpperCase env version locale detectLocale) in H.
      unfold markerKeys in Hm. simpl in Hm.
      assert (Hk : getOwn env k <> None)
        by (rewrite getOwn_None; intros F'; now apply F').
      destruct Hm as [<- | [<- | [<- | [<- | []]]]]; simpl in H.
      * discriminate.
      * destruct (truthy version) eqn:T; [| contradiction].
        destruct version; discriminate.
      * destruct (shouldSetLangEnvVariable env detectLocale);
          [discriminate | contradiction].
      * discriminate.
    + rewrite (F k Hm) in H. apply getOwn_None in H. contradiction.
  - intros W. unfold addTerminalEnvironmentKeys.
    apply wellFormed_setProp.
    match goal with
    | |- wellFormed (if ?c then _ else _) => destruct c
    end;
    [apply wellFormed_setProp |];
    (destruct version as [v |];
     [destruct (truthy (Some v)); [apply wellFormed_setProp |] |];
     now apply wellFormed_setProp).
Qed.

Lemma X8_addTerminalEnvironmentKeys_frame_witness :
  getOwn (addTerminalEnvironmentKeys asciiUpper exBase (Some "1.0") (Some "fr") On)
    "PATH" = Some (VStr "/bin") /\
  wellFormed (addTerminalEnvironmentKeys asciiUpper exBase (Some "1.0") (Some "fr") On).
Proof.
  destruct (X8_addTerminalEnvironmentKeys_frame asciiUpper exBase (Some "1.0")
              (Some "fr") On) as (Hf & _ & Hw).
  split.
  - rewrite Hf; [reflexivity | not_in].
  - apply Hw. distinct_keys.
Defined.

(** X9. [addTerminalEnvironmentKeys] is idempotent: applied to its own result
    with the same version, locale and mode, it returns that result
    unchanged. *)
Theorem X9_addTerminalEnvironmentKeys_idempotent
    (toUpperCase : string -> string) (env : IProcessEnvironment)
    (version locale : option string) (detectLocale : DetectLocale) :
  addTerminalEnvironmentKeys toUpperCase
    (addTerminalEnvironmentKeys toUpperCase env version locale detectLocale)
    version locale detectLocale =
  addTerminalEnvironmentKeys toUpperCase env version locale detectLocale.
Proof.
  set (R := addTerminalEnvironmentKeys toUpperCase env version locale detectLocale).
  assert (Ht : getOwn R "TERM_PROGRAM" = Some (VStr "vscode")).
  { unfold R. rewrite (marked_lookup toUpperCase env version locale detectLocale),
      (versioned_lookup toUpperCase env version locale detectLocale). reflexivity. }
  assert (Hc : getOwn R "COLORTERM" = Some (VStr "truecolor")).
  { unfold R.
    rewrite (marked_lookup toUpperCase env version locale detectLocale).
    reflexivity. }
  assert (Hv : forall v, version = Some v -> truthy version = true ->
                 getOwn R "TERM_PROGRAM_VERSION" = Some (VStr v)).
  { intros v E T. unfold R.
    rewrite (marked_lookup toUpperCase env version locale detectLocale),
      (versioned_lookup toUpperCase env version locale detectLocale).
    simpl. rewrite T, E. reflexivity. }
  assert (Hl : getOwn R "LANG" =
               if shouldSetLangEnvVariable env detectLocale
               then Some (VStr (getLangEnvVariable toUpperCase locale))
               else getOwn env "LANG").
  { unfold R. rewrite (marked_lookup toUpperCase env version locale detectLocale),
      (versioned_lookup toUpperCase env version locale detectLocale). simpl.
    now destruct (shouldSetLangEnvVariable env detectLocale). }
  unfold addTerminalEnvironmentKeys at 1.
  rewrite (setProp_same R "TERM_PROGRAM" _ Ht).
  assert (Hver : match version with
                 | Some v => if truthy version
                             then setProp R "TERM_PROGRAM_VERSION" (VStr v) else R
                 | None => R
                 end = R).
  { destruct version as [v |] eqn:Ev; [| reflexivity].
    destruct (truthy (Some v)) eqn:T; [| reflexivity].
    apply setProp_same. now apply Hv. }
  rewrite Hver.
  assert (Hlang : (if shouldSetLangEnvVariable R detectLocale
                   then setProp R "LANG" (VStr (getLangEnvVariable toUpperCase locale))
                   else R) = R).
  { destruct (shouldSetLangEnvVariable R detectLocale) eqn:S; [| reflexivity].
    apply setProp_same. rewrite Hl.
    destruct (shouldSetLangEnvVariable env detectLocale) eqn:S'; [reflexivity |].
    rewrite (shouldSetLangEnvVariable_ext R env) in S by exact Hl.
    congruence. }
  rewrite Hlang. now apply setProp_same.
Qed.

(** ** The locale that is written *)

Lemma getLangEnvVariable_EndsWith (toUpperCase : string -> string)
    (locale : option string) :
  EndsWith (getLangEnvVariable toUpperCase locale) ".UTF-8".
Proof.
  unfold getLangEnvVariable.
  destruct (match locale with
            | Some l => if truthy locale then split "-" l else []
            | None => []
            end) as [| language [| variant more]].
  - now exists "en_US".
  - eexists. reflexivity.
  - eexists. reflexivity.
Qed.

Lemma utf8_LANG_is_kept (env : IProcessEnvironment) (lang : string) :
  getOwn env "LANG" = Some (VStr lang) -> EndsWith lang ".UTF-8" ->
  shouldSetLangEnvVariable env Auto = false.
Proof.
  intros H E. unfold shouldSetLangEnvVariable, prop. rewrite H.
  apply orb_false_iff. split.
  - apply eqb_of_neq. eapply EndsWith_not_empty; [| exact E]. discriminate.
  - apply (search_literal_end ".UTF-8") in E. unfold reUTF8.
    now rewrite E.
Qed.

(** X10. Once [addTerminalEnvironmentKeys] has run in the mode [on] or
    [auto], the environment holds a [LANG] that the mode [auto] accepts: a
    later decision in the mode [auto] is not to write [LANG]. *)
Theorem X10_LANG_settled_after_marking
    (toUpperCase : string -> string) (env : IProcessEnvironment)
    (version locale : option string) (detectLocale : DetectLocale) :
  detectLocale <> Off ->
  shouldSetLangEnvVariable
    (addTerminalEnvironmentKeys toUpperCase env version locale detectLocale)
    Auto = false.
Proof.
  intros Hd.
  set (R := addTerminalEnvironmentKeys toUpperCase env version locale detectLocale).
  assert (Hl : getOwn R "LANG" =
               if shouldSetLangEnvVariable env detectLocale
               then Some (VStr (getLangEnvVariable toUpperCase locale))
               else getOwn env "LANG").
  { unfold R.
    rewrite (marked_lookup toUpperCase env version locale detectLocale),
      (versioned_lookup toUpperCase env version locale detectLocale).
    simpl. now destruct (shouldSetLangEnvVariable env detectLocale). }
  destruct (shouldSetLangEnvVariable env detectLocale) eqn:S.
  - eapply utf8_LANG_is_kept; [exact Hl | apply getLangEnvVariable_EndsWith].
  - destruct detectLocale; [| contradiction | discriminate].
    rewrite (shouldSetLangEnvVariable_ext R env) by exact Hl. exact S.
Qed.

Lemma X10_LANG_settled_after_marking_witness :
  shouldSetLangEnvVariable
    (addTerminalEnvironmentKeys asciiUpper [("LANG", VStr "C")] None (Some "de") Auto)
    Auto = false.
Proof.
  apply X10_LANG_settled_after_marking. discriminate.
Defined.

(** X11. A single-segment tag that does not name a member of
    [Object.prototype] is given the region of the table when it is a key of
    the table, and no region otherwise: the result is the tag, then an
    underscore and the region if there is one, then [.UTF-8]. *)
Theorem X11_single_segment_region
    (toUpperCase : string -> string) (language : string) :
  noDash language = true -> language <> "" ->
  lookupTable objectPrototype language = None ->
  getLangEnvVariable toUpperCase (Some language) =
  match lookupTable languageVariants language with
  | Some region => (language ++ "_" ++ region ++ ".UTF-8")%string
  | None => (language ++ ".UTF-8")%string
  end.
Proof.
  intros Hd Hne Hp.
  destruct (lookupTable languageVariants language) as [region |] eqn:E.
  - now apply getLangEnvVariable_known.
  - now apply getLangEnvVariable_unknown.
Qed.

Lemma X11_single_segment_region_witness :
  getLangEnvVariable asciiUpper (Some "ja") = "ja_JP.UTF-8" /\
  getLangEnvVariable asciiUpper (Some "tlh") = "tlh.UTF-8".
Proof.
  split.
  - apply (X11_single_segment_region asciiUpper "ja");
      [reflexivity | discriminate | reflexivity].
  - apply (X11_single_segment_region asciiUpper "tlh");
      [reflexivity | discriminate | reflexivity].
Defined.

(** ** The build and its layers *)

Lemma resolve_rejectAll (env : ITerminalEnvironment) :
  wellFormed env -> resolveConfigurationVariables rejectAll env = env.
Proof.
  intros W. rewrite resolveConfigurationVariables_map by assumption.
  rewrite <- (map_id env) at 2. apply map_ext.
  now intros [k [s | |]].
Qed.

(** X12. Without [strictEnv] the marker keys have the last word: whatever the
    base environment, the configured overlay and [launchConfig.env] hold, the
    result maps [TERM_PROGRAM] to [vscode] and [COLORTERM] to [truecolor],
    [TERM_PROGRAM_VERSION] to the version when one is given and non-empty,
    and, in the mode [on], [LANG] to the locale value of the UI language. *)
Theorem X12_markers_have_the_last_word
    (toLowerCase toUpperCase : string -> string) (isWindows : bool)
    (language : option string)
    (sanitize : IProcessEnvironment -> list string -> IProcessEnvironment)
    (shellLaunchConfig : IShellLaunchConfig)
    (envFromConfig : option ITerminalEnvironment)
    (variableResolver : option VariableResolver)
    (version : option string) (detectLocale : DetectLocale)
    (baseEnv : IProcessEnvironment) :
  ShellLaunchConfig.strictEnv shellLaunchConfig = false ->
  let result :=
    createTerminalEnvironment toLowerCase toUpperCase isWindows language sanitize
      shellLaunchConfig envFromConfig variableResolver version detectLocale baseEnv in
  getOwn result "TERM_PROGRAM" = Some (VStr "vscode") /\
  getOwn result "COLORTERM" = Some (VStr "truecolor") /\
  (truthy version = true ->
   getOwn result "TERM_PROGRAM_VERSION" = option_map VStr version) /\
  (detectLocale = On ->
   getOwn result "LANG" = Some (VStr (getLangEnvVariable toUpperCase language))).
Proof.
  intros Hs result. subst result.
  rewrite (create_layers toLowerCase toUpperCase isWindows language sanitize
             shellLaunchConfig envFromConfig variableResolver version
             detectLocale baseEnv Hs).
  set (merged := mergeEnvironments toLowerCase isWindows _ _).
  repeat split.
  - rewrite (marked_lookup toUpperCase merged version language detectLocale),
      (versioned_lookup toUpperCase merged version language detectLocale).
    reflexivity.
  - rewrite (marked_lookup toUpperCase merged version language detectLocale).
    reflexivity.
  - intros T.
    rewrite (marked_lookup toUpperCase merged version language detectLocale),
      (versioned_lookup toUpperCase merged version language detectLocale).
    simpl. now rewrite T.
  - intros ->.
    rewrite (marked_lookup toUpperCase merged version language On).
    reflexivity.
Qed.

Lemma X12_markers_have_the_last_word_witness :
  getOwn
    (createTerminalEnvironment asciiLower asciiUpper false (Some "fr")
       sanitizeProcessEnvironmentSpec
       (mkLaunch (Some [("COLORTERM", VNull); ("TERM_PROGRAM", VStr "mine")]) false)
       None None (Some "1.0") On []) "COLORTERM" = Some (VStr "truecolor") /\
  getOwn
    (createTerminalEnvironment asciiLower asciiUpper false (Some "fr")
       sanitizeProcessEnvironmentSpec
       (mkLaunch (Some [("COLORTERM", VNull); ("TERM_PROGRAM", VStr "mine")]) false)
       None None (Some "1.0") On []) "LANG" = Some (VStr "fr_FR.UTF-8").
Proof.
  destruct (X12_markers_have_the_last_word asciiLower asciiUpper false (Some "fr")
              sanitizeProcessEnvironmentSpec
              (mkLaunch (Some [("COLORTERM", VNull); ("TERM_PROGRAM", VStr "mine")])
                 false)
              None None (Some "1.0") On [] eq_refl) as (_ & Hc & _ & Hl).
  split; [exact Hc | exact (Hl eq_refl)].
Defined.

(** X13. Without [strictEnv], a variable of the base environment on which
    neither overlay has a say, and which is not a marker key, reads in the
    result as it reads in the sanitized copy of the base: the base
    environment is inherited.  The copy is the one [mergeNonNullKeys] makes
    into an empty object: it holds the string entries of the base, but for a
    string under the key [__proto__], which it drops. *)
Theorem X13_base_is_inherited
    (toLowerCase toUpperCase : string -> string) (isWindows : bool)
    (language : option string)
    (sanitize : IProcessEnvironment -> list string -> IProcessEnvironment)
    (shellLaunchConfig : IShellLaunchConfig)
    (envFromConfig : option ITerminalEnvironment)
    (variableResolver : option VariableResolver)
    (version : option string) (detectLocale : DetectLocale)
    (baseEnv : IProcessEnvironment) (k : string) :
  ShellLaunchConfig.strictEnv shellLaunchConfig = false ->
  wellFormed (spread envFromConfig) ->
  silentOn (keyForm toLowerCase isWindows) (spread envFromConfig) k ->
  (forall requested,
     ShellLaunchConfig.env shellLaunchConfig = Some requested ->
     wellFormed requested /\
     silentOn (keyForm toLowerCase isWindows) requested k) ->
  notMarker (keyForm toLowerCase isWindows) k ->
  let copy := mergeNonNullKeys [] (Some baseEnv) in
  lookupBy (keyForm toLowerCase isWindows)
    (createTerminalEnvironment toLowerCase toUpperCase isWindows language sanitize
       shellLaunchConfig envFromConfig variableResolver version detectLocale baseEnv)
    k =
  lookupBy (keyForm toLowerCase isWindows) (sanitize copy sanitizedNames) k /\
  forall k',
    getOwn copy k' =
    match getOwn baseEnv k' with
    | Some (VStr s) => if String.eqb k' "__proto__" then None else Some (VStr s)
    | _ => None
    end.
Proof.
  intros Hs Wc Hc Hl Hm copy. subst copy. split.
  - rewrite (create_launch_silent toLowerCase toUpperCase isWindows language sanitize
               shellLaunchConfig envFromConfig variableResolver version
               detectLocale baseEnv Hs k Hl Hm).
    rewrite resolvedConfigEnv_entries by assumption.
    rewrite mergeEnvironments_entries
      by (unfold wellFormed; now rewrite resolvedEntries_keys).
    now rewrite merge_silent by now apply resolvedEntries_silentOn.
  - intros k'. apply (getOwn_mergeNonNullKeys (Some baseEnv)).
Qed.

Lemma X13_base_is_inherited_witness :
  lookupBy (keyForm asciiLower true)
    (createTerminalEnvironment asciiLower asciiUpper true (Some "en")
       sanitizeProcessEnvironmentSpec (mkLaunch (Some [("A", VStr "1")]) false)
       (Some exConfig) (Some homeResolver) (Some "1.0") Auto exBase) "home" =
  Some (VStr "/h").
Proof.
  destruct (X13_base_is_inherited asciiLower asciiUpper true (Some "en")
              sanitizeProcessEnvironmentSpec
              (mkLaunch (Some [("A", VStr "1")]) false)
              (Some exConfig) (Some homeResolver) (Some "1.0") Auto exBase "home")
    as (H & _).
  - reflexivity.
  - distinct_keys.
  - unfold silentOn. repeat constructor; vm_compute; discriminate.
  - intros requested [= <-]. split; [distinct_keys |].
    unfold silentOn. repeat constructor; vm_compute; discriminate.
  - not_marker.
  - rewrite H. reflexivity.
Defined.

(** A string that the base environment holds under [__proto__] is not
    inherited. *)
Example base_proto_example :
  createTerminalEnvironment asciiLower asciiUpper false (Some "en")
    sanitizeProcessEnvironmentSpec (mkLaunch None false)
    None None None Off [("__proto__", VStr "x"); ("A", VStr "1")] =
  [("A", VStr "1"); ("TERM_PROGRAM", VStr "vscode");
   ("COLORTERM", VStr "truecolor")].
Proof. reflexivity. Qed.

(** X14. A configuration resolver service that fails on every string gives
    the same environment as no service at all, in both modes: failures of
    the resolution are not fatal and leave the overlays as they are. *)
Theorem X14_failing_service_is_no_service
    (IWorkspaceFolder : Type)
    (toLowerCase toUpperCase : string -> string) (isWindows : bool)
    (language : option string)
    (sanitize : IProcessEnvironment -> list string -> IProcessEnvironment)
    (lastActiveWorkspace : option IWorkspaceFolder)
    (processEnv : IProcessEnvironment)
    (shellLaunchConfig : IShellLaunchConfig)
    (envFromConfig : option ITerminalEnvironment)
    (version : option string) (detectLocale : DetectLocale)
    (baseEnv : IProcessEnvironment) :
  wellFormed (spread envFromConfig) ->
  (forall requested,
     ShellLaunchConfig.env shellLaunchConfig = Some requested ->
     wellFormed requested) ->
  createTerminalEnvironment toLowerCase toUpperCase isWindows language sanitize
    shellLaunchConfig envFromConfig
    (createVariableResolver IWorkspaceFolder lastActiveWorkspace processEnv
       (Some (failingService IWorkspaceFolder)))
    version detectLocale baseEnv =
  createTerminalEnvironment toLowerCase toUpperCase isWindows language sanitize
    shellLaunchConfig envFromConfig
    (createVariableResolver IWorkspaceFolder lastActiveWorkspace processEnv None)
    version detectLocale baseEnv.
Proof.
  intros Wc Wl.
  change (createVariableResolver IWorkspaceFolder lastActiveWorkspace processEnv
            (Some (failingService IWorkspaceFolder))) with (Some rejectAll).
  change (createVariableResolver IWorkspaceFolder lastActiveWorkspace processEnv
            None) with (@None VariableResolver).
  unfold createTerminalEnvironment.
  destruct (ShellLaunchConfig.strictEnv shellLaunchConfig); [reflexivity |].
  assert (Hc : resolvedConfigEnv envFromConfig (Some rejectAll) =
               resolvedConfigEnv envFromConfig None).
  { unfold resolvedConfigEnv. fold (spread envFromConfig).
    now apply resolve_rejectAll. }
  assert (Hl : resolvedLaunchEnv shellLaunchConfig (Some rejectAll) =
               resolvedLaunchEnv shellLaunchConfig None).
  { unfold resolvedLaunchEnv.
    destruct (ShellLaunchConfig.env shellLaunchConfig) as [requested |] eqn:E;
      [| reflexivity].
    f_equal. apply resolve_rejectAll. now apply Wl. }
  now rewrite Hc, Hl.
Qed.

Lemma X14_failing_service_is_no_service_witness :
  createTerminalEnvironment asciiLower asciiUpper true (Some "en")
    sanitizeProcessEnvironmentSpec (mkLaunch (Some exRequested) false)
    (Some exConfig)
    (createVariableResolver unit None exBase (Some (failingService unit)))
    (Some "1.0") Auto exBase =
  createTerminalEnvironment asciiLower asciiUpper true (Some "en")
    sanitizeProcessEnvironmentSpec (mkLaunch (Some exRequested) false)
    (Some exConfig) None (Some "1.0") Auto exBase.
Proof.
  apply (X14_failing_service_is_no_service unit asciiLower asciiUpper true
           (Some "en") sanitizeProcessEnvironmentSpec None exBase
           (mkLaunch (Some exRequested) false) (Some exConfig) (Some "1.0") Auto
           exBase).
  - distinct_keys.
  - intros requested [= <-]. distinct_keys.
Defined.

(** ** The working directory when no cwd is requested *)

Lemma truthy_usable (c : option string) (c' : string) :
  usable c = Some c' -> c = Some c' /\ truthy (Some c') = true.
Proof.
  unfold usable, truthy. destruct c as [s |]; [| discriminate].
  case_eqb s ""; [discriminate |].
  intros [= <-]. split; [reflexivity |].
  now rewrite (eqb_of_neq s "").
Qed.

Lemma falsy_usable (c : option string) :
  usable c = None -> truthy c = false.
Proof.
  unfold usable, truthy. destruct c as [s |]; [| reflexivity].
  case_eqb s ""; [reflexivity | discriminate].
Qed.

(** The configured cwd as [getCwd] resolves it. *)
Lemma resolution_eq (variableResolver : option VariableResolver) (c : string) :
  match variableResolver, Some c with
  | Some _, Some c' => _resolveCwd c' variableResolver
  | _, _ => Some c
  end = _resolveCwd c variableResolver.
Proof. now destruct variableResolver. Qed.

(** X15. When [launchConfig.cwd] is absent or the empty string, and the
    configured cwd is to be ignored or is absent or empty, [getCwd] returns
    the sanitized path of the workspace root if there is one, else the
    sanitized user home, else the sanitized empty string; the resolver is not
    consulted. *)
Theorem X15_getCwd_nothing_configured
    (sanitizeCwd : string -> string) (isAbsolute : string -> bool)
    (pathJoin : string -> string -> string)
    (shell : IShellLaunchConfig) (userHome : option string)
    (variableResolver : option VariableResolver)
    (root : option URI) (customCwd : option string) :
  ShellLaunchConfig.cwd shell = None \/ ShellLaunchConfig.cwd shell = Some (inl "") ->
  ShellLaunchConfig.ignoreConfigurationCwd shell = true \/ truthy customCwd = false ->
  getCwd sanitizeCwd isAbsolute pathJoin shell userHome variableResolver root
    customCwd =
  sanitizeCwd (rootOrHome root userHome).
Proof.
  intros Hc Hi.
  assert (Hset : ifSet (ShellLaunchConfig.cwd shell) = None)
    by (destruct Hc as [-> | ->]; reflexivity).
  unfold getCwd. rewrite Hset.
  assert (Hcond : negb (ShellLaunchConfig.ignoreConfigurationCwd shell) &&
                  truthy customCwd = false).
  { destruct Hi as [-> | ->]; [reflexivity | apply andb_false_r]. }
  rewrite Hcond. reflexivity.
Qed.

Lemma X15_getCwd_nothing_configured_witness :
  getCwd (fun p => p) (fun _ => true) String.append
    (launchWith (Some (inl "")) true) (Some "/users/u") (Some homeResolver)
    (Some {| fsPath := "/workspace" |}) (Some "/configured") = "/workspace" /\
  getCwd (fun p => p) (fun _ => true) String.append
    (launchWith None false) (Some "/users/u") (Some homeResolver)
    None (Some "") = "/users/u".
Proof.
  split.
  - apply (X15_getCwd_nothing_configured (fun p => p) (fun _ => true) String.append
             (launchWith (Some (inl "")) true) (Some "/users/u") (Some homeResolver)
             (Some {| fsPath := "/workspace" |}) (Some "/configured"));
      [now right | now left].
  - apply (X15_getCwd_nothing_configured (fun p => p) (fun _ => true) String.append
             (launchWith None false) (Some "/users/u") (Some homeResolver)
             None (Some ""));
      [now left | now right].
Defined.

(** X16. When [launchConfig.cwd] is absent or empty and the configured cwd
    is in use, a configured cwd that the resolver rejects, or resolves to the
    empty string, is dropped: [getCwd] returns what it returns with nothing
    configured.  So does a relative configured cwd when there is no workspace
    root: the user home (or the empty string) is returned. *)
Theorem X16_getCwd_unusable_configured_cwd
    (sanitizeCwd : string -> string) (isAbsolute : string -> bool)
    (pathJoin : string -> string -> string)
    (shell : IShellLaunchConfig) (userHome : option string)
    (variableResolver : option VariableResolver)
    (root : option URI) (configured : string) :
  ShellLaunchConfig.cwd shell = None \/ ShellLaunchConfig.cwd shell = Some (inl "") ->
  ShellLaunchConfig.ignoreConfigurationCwd shell = false ->
  configured <> "" ->
  let cwd := getCwd sanitizeCwd isAbsolute pathJoin shell userHome variableResolver
               root (Some configured) in
  (usable (_resolveCwd configured variableResolver) = None ->
   cwd = sanitizeCwd (rootOrHome root userHome)) /\
  (forall c',
     usable (_resolveCwd configured variableResolver) = Some c' ->
     isAbsolute c' = false -> root = None ->
     cwd = sanitizeCwd (orElse userHome "")).
Proof.
  intros Hc Hi Hne cwd. subst cwd.
  assert (Hset : ifSet (ShellLaunchConfig.cwd shell) = None)
    by (destruct Hc as [-> | ->]; reflexivity).
  unfold getCwd. rewrite Hset, Hi.
  assert (Ht : truthy (Some configured) = true).
  { unfold truthy. now rewrite (eqb_of_neq configured ""). }
  rewrite Ht. cbn [negb andb]. rewrite resolution_eq.
  split.
  - intros Hu. pose proof (falsy_usable _ Hu) as Hf.
    destruct (_resolveCwd configured variableResolver) as [c' |]; [| reflexivity].
    now rewrite Hf.
  - intros c' Hu Ha ->.
    destruct (truthy_usable _ _ Hu) as (-> & Ht').
    now rewrite Ht', Ha.
Qed.

Lemma X16_getCwd_unusable_configured_cwd_witness :
  getCwd (fun p => p) (fun _ => true) String.append
    (launchWith None false) (Some "/users/u") (Some homeResolver)
    (Some {| fsPath := "/workspace" |}) (Some "${missing}") = "/workspace" /\
  getCwd (fun p => p) (fun _ => false) String.append
    (launchWith None false) (Some "/users/u") None None (Some "sub") = "/users/u".
Proof.
  split.
  - destruct (X16_getCwd_unusable_configured_cwd (fun p => p) (fun _ => true)
                String.append (launchWith None false) (Some "/users/u")
                (Some homeResolver) (Some {| fsPath := "/workspace" |})
                "${missing}") as (Hrej & _);
      [now left | reflexivity | discriminate |].
    now apply Hrej.
  - destruct (X16_getCwd_unusable_configured_cwd (fun p => p) (fun _ => false)
                String.append (launchWith None false) (Some "/users/u")
                None None "sub") as (_ & Hrel);
      [now left | reflexivity | discriminate |].
    now apply (Hrel "sub").
Defined.

(** X17. When [launchConfig.cwd] is absent or empty and the configured cwd is
    in use and resolves to a non-empty string: an absolute one is returned
    sanitized, whatever the workspace root and the user home are; a relative
    one is joined to the path of the workspace root, and the root itself is
    returned when the join is empty. *)
Theorem X17_getCwd_configured_cwd
    (sanitizeCwd : string -> string) (isAbsolute : string -> bool)
    (pathJoin : string -> string -> string)
    (shell : IShellLaunchConfig) (userHome : option string)
    (variableResolver : option VariableResolver)
    (root : option URI) (configured c' : string) :
  ShellLaunchConfig.cwd shell = None \/ ShellLaunchConfig.cwd shell = Some (inl "") ->
  ShellLaunchConfig.ignoreConfigurationCwd shell = false ->
  configured <> "" ->
  usable (_resolveCwd configured variableResolver) = Some c' ->
  let cwd := getCwd sanitizeCwd isAbsolute pathJoin shell userHome variableResolver
               root (Some configured) in
  (isAbsolute c' = true -> cwd = sanitizeCwd c') /\
  (forall r, isAbsolute c' = false -> root = Some r ->
     cwd = sanitizeCwd (orElse (Some (pathJoin (fsPath r) c')) (fsPath r))).
Proof.
  intros Hc Hi Hne Hu cwd. subst cwd.
  assert (Hset : ifSet (ShellLaunchConfig.cwd shell) = None)
    by (destruct Hc as [-> | ->]; reflexivity).
  unfold getCwd. rewrite Hset, Hi.
  assert (Ht : truthy (Some configured) = true).
  { unfold truthy. now rewrite (eqb_of_neq configured ""). }
  rewrite Ht. cbn [negb andb]. rewrite resolution_eq.
  destruct (truthy_usable _ _ Hu) as (-> & Ht'). rewrite Ht'.
  split.
  - intros ->. rewrite Ht'. unfold orElse.
    unfold truthy in Ht'. apply negb_true_iff in Ht'. now rewrite Ht'.
  - intros r -> ->. unfold truthy, orElse, rootOrHome.
    now destruct (String.eqb (pathJoin (fsPath r) c') "").
Qed.

Lemma X17_getCwd_configured_cwd_witness :
  getCwd (fun p => p) (fun p => String.prefix "/" p) String.append
    (launchWith None false) (Some "/users/u") (Some homeResolver)
    (Some {| fsPath := "/workspace" |}) (Some "${home}") = "/home/u" /\
  getCwd (fun p => p) (fun p => String.prefix "/" p) String.append
    (launchWith None false) (Some "/users/u") None
    (Some {| fsPath := "/workspace/" |}) (Some "sub") = "/workspace/sub".
Proof.
  split.
  - destruct (X17_getCwd_configured_cwd (fun p => p) (fun p => String.prefix "/" p)
                String.append (launchWith None false) (Some "/users/u")
                (Some homeResolver) (Some {| fsPath := "/workspace" |})
                "${home}" "/home/u") as (Habs & _);
      [now left | reflexivity | discriminate | reflexivity |].
    now apply Habs.
  - destruct (X17_getCwd_configured_cwd (fun p => p) (fun p => String.prefix "/" p)
                String.append (launchWith None false) (Some "/users/u")
                None (Some {| fsPath := "/workspace/" |})
                "sub" "sub") as (_ & Hrel);
      [now left | reflexivity | discriminate | reflexivity |].
    now apply (Hrel {| fsPath := "/workspace/" |}).
Defined.

(** ** Paths for the shell *)

Lemma includes_char_cons (a c : ascii) (s : string) :
  includes (String a s) (String c EmptyString) =
  Ascii.eqb a c || includes s (String c EmptyString).
Proof.
  cbn [includes]. f_equal. simpl.
  destruct (ascii_dec c a) as [-> | H].
  - rewrite Ascii.eqb_refl. now destruct s.
  - symmetry. apply Ascii.eqb_neq. congruence.
Qed.

(** Replacing a character by another one leaves none of the first. *)
Lemma replaceAll_removes (c d : ascii) (s : string) :
  c <> d ->
  includes (replaceAll c (String d EmptyString) s) (String c EmptyString) = false.
Proof.
  intros Hcd. induction s as [| a s IH]; [reflexivity |].
  cbn [replaceAll]. destruct (Ascii.eqb a c) eqn:E.
  - change (String d EmptyString ++ replaceAll c (String d EmptyString) s)%string
      with (String d (replaceAll c (String d EmptyString) s)).
    rewrite includes_char_cons, IH, orb_false_r.
    apply Ascii.eqb_neq. congruence.
  - now rewrite includes_char_cons, IH, E.
Qed.

(** Where the character does not occur there is nothing to replace. *)
Lemma replaceAll_absent (c : ascii) (by_ s : string) :
  includes s (String c EmptyString) = false -> replaceAll c by_ s = s.
Proof.
  induction s as [| a s IH]; [reflexivity |].
  rewrite includes_char_cons. intros H. apply orb_false_iff in H.
  destruct H as (Ha & Hs). cbn [replaceAll]. rewrite Ha. now rewrite IH.
Qed.

(** Doubling the quotes loses nothing. *)
Lemma doubling_injective (p q : string) :
  replaceAll "'" "''" p = replaceAll "'" "''" q -> p = q.
Proof.
  revert q. induction p as [| a p IH]; intros [| b q]; cbn [replaceAll].
  - reflexivity.
  - destruct (Ascii.eqb b "'"); discriminate.
  - destruct (Ascii.eqb a "'"); discriminate.
  - destruct (Ascii.eqb a "'") eqn:Ea; destruct (Ascii.eqb b "'") eqn:Eb; simpl.
    + apply Ascii.eqb_eq in Ea, Eb. subst. intros [= H]. f_equal. now apply IH.
    + intros [= <- H]. discriminate.
    + intros [= -> H]. discriminate.
    + intros [= -> H]. f_equal. now apply IH.
Qed.

Lemma append_char_injective (x y : string) (c : ascii) :
  (x ++ String c EmptyString)%string = (y ++ String c EmptyString)%string -> x = y.
Proof.
  revert y. induction x as [| a x IH]; intros [| b y]; simpl.
  - reflexivity.
  - intros [= -> H]. now destruct y.
  - intros [= -> H]. now destruct x.
  - intros [= -> H]. f_equal. now apply IH.
Qed.

Section PreparePathFacts.

Variable basename : string -> string -> string.
Variable escapeNonWindowsPath toLowerCase : string -> string.

Let prepare := preparePathForShell basename escapeNonWindowsPath toLowerCase.

(** The two PowerShell branches give the same form. *)
Lemma prepare_powershell
    (resource : string + URI) (executable title : string)
    (shellType : option TerminalShellType) (backend : option ITerminalBackend)
    (os : option OperatingSystem) (isWindowsFrontend : bool) :
  executable <> "" ->
  isPowerShell basename executable title = true ->
  includes (originalPathOf resource os isWindowsFrontend) " " ||
  includes (originalPathOf resource os isWindowsFrontend) "'" ||
  (includes (originalPathOf resource os isWindowsFrontend) "(" ||
   includes (originalPathOf resource os isWindowsFrontend) ")") = true ->
  prepare resource (Some executable) title shellType backend os isWindowsFrontend =
  ("& '" ++
   replaceAll "'" "''" (originalPathOf resource os isWindowsFrontend) ++ "'")%string.
Proof.
  intros Hne Hp Hs. unfold prepare, preparePathForShell.
  rewrite (eqb_of_neq _ _ Hne), Hp.
  set (p := originalPathOf resource os isWindowsFrontend) in *.
  destruct (includes p " " || includes p "'") eqn:E1; simpl.
  - reflexivity.
  - simpl in Hs. rewrite Hs.
    apply orb_false_iff in E1. destruct E1 as (_ & Hq).
    now rewrite (replaceAll_absent "'" "''" p Hq).
Qed.

End PreparePathFacts.

(** X18. With no executable, or an empty one, [preparePathForShell] quotes
    and escapes nothing.  A string is returned as it is.  The path of a URI
    is returned with the separators of the backend: from a Windows frontend
    to another backend every backslash becomes a slash and none is left; to a
    Windows backend from another frontend no slash is left; and the path is
    returned as it is when frontend and backend agree. *)
Theorem X18_no_executable_no_quoting
    (basename : string -> string -> string)
    (escapeNonWindowsPath toLowerCase : string -> string)
    (resource : string + URI) (executable : option string) (title : string)
    (shellType : option TerminalShellType) (backend : option ITerminalBackend)
    (os : option OperatingSystem) (isWindowsFrontend : bool) :
  executable = None \/ executable = Some "" ->
  let path :=
    preparePathForShell basename escapeNonWindowsPath toLowerCase
      resource executable title shellType backend os isWindowsFrontend in
  (forall s, resource = inl s -> path = s) /\
  (forall u, resource = inr u ->
     isWindowsFrontend = true -> isWindowsOS os = false ->
     path = replaceAll "\" "/" (fsPath u) /\ ~ Contains path "\") /\
  (forall u, resource = inr u ->
     isWindowsFrontend = false -> isWindowsOS os = true ->
     path = replaceAll "/" "\" (fsPath u) /\ ~ Contains path "/") /\
  (forall u, resource = inr u ->
     isWindowsFrontend = isWindowsOS os -> path = fsPath u).
Proof.
  intros He path.
  assert (Hp : path = originalPathOf resource os isWindowsFrontend).
  { subst path. unfold preparePathForShell. now destruct He as [-> | ->]. }
  rewrite Hp. clear Hp path. repeat split.
  - now intros s ->.
  - subst. simpl. now rewrite H1.
  - subst. simpl. rewrite H1. simpl.
    rewrite <- includes_Contains.
    rewrite (replaceAll_removes "\" "/"); [discriminate | discriminate].
  - subst. simpl. now rewrite H1.
  - subst. simpl. rewrite H1. simpl.
    rewrite <- includes_Contains.
    rewrite (replaceAll_removes "/" "\"); [discriminate | discriminate].
  - intros u -> E. simpl. rewrite E.
    now destruct (isWindowsOS os).
Qed.

Lemma X18_no_executable_no_quoting_witness :
  preparePathForShell basenameSpec (fun p => p) asciiLower
    (inr {| fsPath := "C:\a b\c" |}) None "pwsh" None None (Some Linux) true =
  "C:/a b/c".
Proof.
  destruct (X18_no_executable_no_quoting basenameSpec (fun p => p) asciiLower
              (inr {| fsPath := "C:\a b\c" |}) None "pwsh" None None (Some Linux)
              true (or_introl eq_refl)) as (_ & Hw & _).
  destruct (Hw {| fsPath := "C:\a b\c" |} eq_refl eq_refl eq_refl) as (-> & _).
  reflexivity.
Defined.

(** X19. For PowerShell (with an executable supplied), a path that contains
    a space, a single quote or a parenthesis is returned between [& '] and
    ['] with every single quote doubled: the branch for parentheses gives the
    same form as the branch for spaces and quotes. *)
Theorem X19_powershell_wraps_special_paths
    (basename : string -> string -> string)
    (escapeNonWindowsPath toLowerCase : string -> string)
    (resource : string + URI) (executable title : string)
    (shellType : option TerminalShellType) (backend : option ITerminalBackend)
    (os : option OperatingSystem) (isWindowsFrontend : bool) :
  executable <> "" ->
  isPowerShell basename executable title = true ->
  let originalPath := originalPathOf resource os isWindowsFrontend in
  (Contains originalPath " " \/ Contains originalPath "'" \/
   Contains originalPath "(" \/ Contains originalPath ")") ->
  preparePathForShell basename escapeNonWindowsPath toLowerCase
    resource (Some executable) title shellType backend os isWindowsFrontend =
  ("& '" ++ replaceAll "'" "''" originalPath ++ "'")%string.
Proof.
  intros Hne Hp originalPath Hc.
  apply prepare_powershell; try assumption.
  fold originalPath. rewrite !orb_true_iff, !includes_Contains. tauto.
Qed.

Lemma X19_powershell_wraps_special_paths_witness :
  preparePathForShell basenameSpec (fun p => p) asciiLower
    (inl "/opt/app(1)/run") (Some "/usr/bin/pwsh") "" None None (Some Linux) false =
  "& '/opt/app(1)/run'".
Proof.
  apply (X19_powershell_wraps_special_paths basenameSpec (fun p => p) asciiLower
           (inl "/opt/app(1)/run") "/usr/bin/pwsh" "" None None (Some Linux) false).
  - discriminate.
  - reflexivity.
  - right. right. left. now exists "/opt/app", "1)/run".
Defined.

(** X20. The PowerShell form loses nothing: two paths with a space, a quote
    or a parenthesis that are given the same text for the same PowerShell
    executable are the same path. *)
Theorem X20_powershell_form_is_injective
    (basename : string -> string -> string)
    (escapeNonWindowsPath toLowerCase : string -> string)
    (p q : string) (executable title : string)
    (shellType : option TerminalShellType) (backend : option ITerminalBackend)
    (os : option OperatingSystem) (isWindowsFrontend : bool) :
  executable <> "" ->
  isPowerShell basename executable title = true ->
  (Contains p " " \/ Contains p "'" \/ Contains p "(" \/ Contains p ")") ->
  (Contains q " " \/ Contains q "'" \/ Contains q "(" \/ Contains q ")") ->
  preparePathForShell basename escapeNonWindowsPath toLowerCase
    (inl p) (Some executable) title shellType backend os isWindowsFrontend =
  preparePathForShell basename escapeNonWindowsPath toLowerCase
    (inl q) (Some executable) title shellType backend os isWindowsFrontend ->
  p = q.
Proof.
  intros Hne Hp Hcp Hcq.
  rewrite !prepare_powershell; try assumption.
  - simpl. intros [= H].
    apply doubling_injective. now apply append_char_injective in H.
  - simpl. rewrite !orb_true_iff, !includes_Contains. tauto.
  - simpl. rewrite !orb_true_iff, !includes_Contains. tauto.
Qed.

Lemma X20_powershell_form_is_injective_witness :
  preparePathForShell basenameSpec (fun p => p) asciiLower
    (inl "/a b") (Some "pwsh") "" None None None false =
  preparePathForShell basenameSpec (fun p => p) asciiLower
    (inl "/a b") (Some "pwsh") "" None None None false /\
  "/a b" = "/a b".
Proof.
  split; [reflexivity |].
  apply (X20_powershell_form_is_injective basenameSpec (fun p => p) asciiLower
           "/a b" "/a b" "pwsh" "" None None None false).
  - discriminate.
  - reflexivity.
  - left. now exists "/a", "b".
  - left. now exists "/a", "b".
  - reflexivity.
Defined.

(** X21. For a path without space, single quote and parenthesis the title
    plays no part: [preparePathForShell] returns the same text for every
    title. *)
Theorem X21_title_matters_for_special_paths_only
    (basename : string -> string -> string)
    (escapeNonWindowsPath toLowerCase : string -> string)
    (resource : string + URI) (executable : option string) (title title' : string)
    (shellType : option TerminalShellType) (backend : option ITerminalBackend)
    (os : option OperatingSystem) (isWindowsFrontend : bool) :
  let originalPath := originalPathOf resource os isWindowsFrontend in
  ~ Contains originalPath " " -> ~ Contains originalPath "'" ->
  ~ Contains originalPath "(" -> ~ Contains originalPath ")" ->
  preparePathForShell basename escapeNonWindowsPath toLowerCase
    resource executable title shellType backend os isWindowsFrontend =
  preparePathForShell basename escapeNonWindowsPath toLowerCase
    resource executable title' shellType backend os isWindowsFrontend.
Proof.
  intros originalPath Hs Hq Ho Hc.
  assert (F : forall sub, ~ Contains originalPath sub ->
                includes originalPath sub = false).
  { intros sub H. destruct (includes originalPath sub) eqn:E; [| reflexivity].
    exfalso. apply H. now apply includes_Contains. }
  unfold preparePathForShell. fold originalPath.
  rewrite (F _ Hs), (F _ Hq), (F _ Ho), (F _ Hc).
  destruct executable as [e |]; [| reflexivity].
  destruct (String.eqb e ""); [reflexivity |].
  simpl. now rewrite !andb_false_r.
Qed.

Lemma X21_title_matters_for_special_paths_only_witness :
  preparePathForShell basenameSpec (fun p => p) asciiLower
    (inl "/a/b") (Some "/bin/sh") "pwsh" None None (Some Linux) false =
  preparePathForShell basenameSpec (fun p => p) asciiLower
    (inl "/a/b") (Some "/bin/sh") "sh" None None (Some Linux) false.
Proof.
  apply (X21_title_matters_for_special_paths_only basenameSpec (fun p => p)
           asciiLower (inl "/a/b") (Some "/bin/sh") "pwsh" "sh" None None
           (Some Linux) false);
    rewrite <- includes_Contains; simpl; discriminate.
Defined.



(** ** The workspace of a terminal *)

(** X23. [getWorkspaceForTerminal] returns the workspace folder of the cwd
    when the cwd lies in one, without regard to the history service;
    otherwise the folder of the last active workspace root; and nothing when
    neither exists.  A folder it returns is always one that the workspace
    context service gave for the cwd or for the last active root. *)
Theorem X23_getWorkspaceForTerminal
    (IWorkspaceFolder : Type) (parse : string -> URI)
    (cwd : option (URI + string))
    (workspaceContextService : IWorkspaceContextService IWorkspaceFolder)
    (historyService : IHistoryService) :
  let cwdUri :=
    match cwd with
    | Some (inl u) => Some u
    | Some (inr s) => Some (parse s)
    | None => None
    end in
  let lookup (u : option URI) :=
    match u with
    | Some u => getWorkspaceFolder IWorkspaceFolder workspaceContextService u
    | None => None
    end in
  let folder :=
    getWorkspaceForTerminal IWorkspaceFolder parse cwd workspaceContextService
      historyService in
  (forall f, lookup cwdUri = Some f ->
     forall historyService',
       getWorkspaceForTerminal IWorkspaceFolder parse cwd workspaceContextService
         historyService' = Some f) /\
  (lookup cwdUri = None ->
   folder = lookup (getLastActiveWorkspaceRoot historyService)) /\
  (forall f, folder = Some f ->
     lookup cwdUri = Some f \/
     lookup (getLastActiveWorkspaceRoot historyService) = Some f) /\
  (folder = None <->
   lookup cwdUri = None /\
   lookup (getLastActiveWorkspaceRoot historyService) = None).
Proof.
  intros cwdUri lookup folder.
  assert (E : forall h,
    getWorkspaceForTerminal IWorkspaceFolder parse cwd workspaceContextService h =
    match lookup cwdUri with
    | Some f => Some f
    | None => lookup (getLastActiveWorkspaceRoot h)
    end).
  { intros h. unfold getWorkspaceForTerminal, lookup, cwdUri.
    destruct cwd as [[u | s] |]; reflexivity. }
  subst folder. repeat split.
  - intros f Hf h. now rewrite E, Hf.
  - intros Hn. now rewrite E, Hn.
  - intros f. rewrite E. destruct (lookup cwdUri); intros H; [left | right]; exact H.
  - rewrite E in H. now destruct (lookup cwdUri).
  - rewrite E in H. now destruct (lookup cwdUri).
  - intros (H1 & H2). now rewrite E, H1.
Qed.
